(** * Optimize-Disc.py: disc finder and archive extractor

    A shallow embedding of [scripts/py/Optimize-Disc.py].  The script is a
    sequence of calls into the Python runtime ([str.endswith], [print]),
    [os] / [os.path] and [py7zr]; each of them is modelled below by what
    it does on a POSIX filesystem that is a finite tree of directories and
    regular files (no symbolic links, no permission bits).  The two
    functions of the script and its module-level command line code are
    then transcribed statement by statement over these models. *)

From Stdlib Require Import String Ascii List Bool Arith Lia Permutation.
From Stdlib Require Import DecimalString DecimalNat.
Import ListNotations.

Local Open Scope string_scope.
Local Open Scope list_scope.

(** Python's [+] on [str]. *)
Infix "+++" := String.append (right associativity, at level 60).

(* ================================================================== *)
(** * Python strings *)

Module Str.

(** [s.startswith(p)]. *)
Fixpoint startswith (s p : string) {struct p} : bool :=
  match p, s with
  | EmptyString, _ => true
  | String _ _, EmptyString => false
  | String a p', String b s' => Ascii.eqb a b && startswith s' p'
  end.

(** [s.endswith(suf)] for one suffix: some tail of [s] is [suf]. *)
Fixpoint endswith (s suf : string) : bool :=
  String.eqb s suf ||
  match s with
  | EmptyString => false
  | String _ s' => endswith s' suf
  end.

(** [s.endswith(sufs)] for a tuple of suffixes. *)
Definition endswith_tuple (s : string) (sufs : list string) : bool :=
  existsb (endswith s) sufs.

(** [s.split("/")]. *)
Fixpoint split_slash (s : string) : list string :=
  match s with
  | EmptyString => [EmptyString]
  | String c s' =>
      if Ascii.eqb c "/" then EmptyString :: split_slash s'
      else match split_slash s' with
           | h :: t => String c h :: t
           | [] => [String c EmptyString]
           end
  end.

(** [str(n)] for a non-negative [int]. *)
Definition str (n : nat) : string :=
  NilEmpty.string_of_uint (Nat.to_uint n).

(** Does the character [c] occur in [s]? *)
Fixpoint mem (c : ascii) (s : string) : bool :=
  match s with
  | EmptyString => false
  | String b s' => Ascii.eqb c b || mem c s'
  end.

End Str.

(* ================================================================== *)
(** * posixpath *)

Module PosixPath.

(** [os.path.join(a, b)] with two arguments. *)
Definition join (a b : string) : string :=
  if Str.startswith b "/" then b
  else if String.eqb a "" || Str.endswith a "/" then a +++ b
  else a +++ "/" +++ b.

End PosixPath.

(* ================================================================== *)
(** * The filesystem *)

(** A regular file holds bytes; a directory holds named entries, in the
    order in which the operating system lists them. *)
#[local] Unset Elimination Schemes.
Inductive node : Type :=
| File (data : string)
| Dir (entries : list (string * node)).
#[local] Set Elimination Schemes.

(** Induction on a tree, with the hypothesis for every entry of a
    directory. *)
Fixpoint node_ind (P : node -> Prop)
    (HFile : forall data, P (File data))
    (HDir : forall es, Forall (fun e => P (snd e)) es -> P (Dir es))
    (n : node) {struct n} : P n :=
  match n with
  | File data => HFile data
  | Dir es =>
      HDir es
        ((fix each (l : list (string * node))
            : Forall (fun e => P (snd e)) l :=
            match l with
            | [] => Forall_nil _
            | e :: l' =>
                Forall_cons e (node_ind P HFile HDir (snd e)) (each l')
            end) es)
  end.

Definition is_dir (n : node) : bool :=
  match n with Dir _ => true | File _ => false end.

Definition is_file (n : node) : bool :=
  match n with File _ => true | Dir _ => false end.

(** The first entry called [name]. *)
Fixpoint lookup (name : string) (es : list (string * node)) : option node :=
  match es with
  | [] => None
  | (k, n) :: es' => if String.eqb k name then Some n else lookup name es'
  end.

(** Replace the first entry called [name]. *)
Fixpoint update (name : string) (n : node) (es : list (string * node))
  : list (string * node) :=
  match es with
  | [] => []
  | (k, m) :: es' =>
      if String.eqb k name then (k, n) :: es' else (k, m) :: update name n es'
  end.

(** The node reached from [n] through the names [p]. *)
Fixpoint get (n : node) (p : list string) : option node :=
  match p with
  | [] => Some n
  | c :: p' =>
      match n with
      | File _ => None
      | Dir es =>
          match lookup c es with
          | Some child => get child p'
          | None => None
          end
      end
  end.

(** The state the script runs in: the filesystem tree, the current working
    directory as the names from the root, and what was printed so far. *)
Record world : Type := World {
  root : node;
  cwd : list string;
  stdout : list string
}.

Definition set_root (r : node) (w : world) : world :=
  World r (cwd w) (stdout w).

(** ** Path resolution

    A path is resolved one component at a time.  The position is the stack
    of nodes from the current one up to the root, so that [..] can go
    back.  A component can only be looked up in a directory: anything
    after a regular file, even an empty component (a trailing slash),
    fails. *)
Definition step (stack : list node) (comp : string) : option (list node) :=
  match stack with
  | [] => None
  | File _ :: _ => None
  | Dir es :: up =>
      if String.eqb comp "" || String.eqb comp "." then Some stack
      else if String.eqb comp ".."
           then Some (match up with [] => stack | _ :: _ => up end)
           else match lookup comp es with
                | Some child => Some (child :: stack)
                | None => None
                end
  end.

Fixpoint steps (stack : list node) (comps : list string)
  : option (list node) :=
  match comps with
  | [] => Some stack
  | c :: comps' =>
      match step stack c with
      | Some stack' => steps stack' comps'
      | None => None
      end
  end.

(** What [os.stat(path)] finds; [None] stands for its [OSError]. *)
Definition resolve (w : world) (path : string) : option node :=
  if String.eqb path "" then None
  else
    let start :=
      if Str.startswith path "/" then Some [root w]
      else steps [root w] (cwd w) in
    match start with
    | None => None
    | Some st =>
        match steps st (Str.split_slash path) with
        | Some (n :: _) => Some n
        | _ => None
        end
    end.

(** ** os.walk

    [os.walk(top)] in its default top-down mode: the triple of the
    directory itself, then the walks of its subdirectories in listing
    order, each under the name [os.path.join(top, name)].  A [top] that is
    not a directory yields nothing. *)
Definition dirnames (es : list (string * node)) : list string :=
  map fst (filter (fun e => is_dir (snd e)) es).

Definition filenames (es : list (string * node)) : list string :=
  map fst (filter (fun e => is_file (snd e)) es).

Fixpoint walk (top : string) (n : node) {struct n}
  : list (string * list string * list string) :=
  match n with
  | File _ => []
  | Dir es =>
      (top, dirnames es, filenames es) ::
      (fix walk_each (l : list (string * node)) :=
         match l with
         | [] => []
         | (name, sub) :: l' =>
             walk (PosixPath.join top name) sub ++ walk_each l'
         end) es
  end.

(* ================================================================== *)
(** * Exceptions and the state monad of the script *)

Inductive exn : Type :=
| FileNotFoundError
| IsADirectoryError
| NotADirectoryError
| FileExistsError
| Bad7zFile
| CrcError
| DecompressionError
| TypeError
| AttributeError
| IndexError.

Inductive result (A : Type) : Type :=
| Ok (a : A)
| Raise (e : exn).
Arguments Ok {A} a.
Arguments Raise {A} e.

(** A computation over a state [S] returns or raises, and leaves a state
    behind in both cases: what a Python statement did before it raised
    stays done. *)
Definition St (S A : Type) : Type := S -> result A * S.

Definition ret {S A : Type} (a : A) : St S A := fun s => (Ok a, s).

Definition raise {S A : Type} (e : exn) : St S A := fun s => (Raise e, s).

Definition bind {S A B : Type} (m : St S A) (k : A -> St S B) : St S B :=
  fun s =>
    match m s with
    | (Ok a, s') => k a s'
    | (Raise e, s') => (Raise e, s')
    end.

(** [try: body  except: handler] with a bare [except]. *)
Definition try_except {S A : Type} (body handler : St S A) : St S A :=
  fun s =>
    match body s with
    | (Ok a, s') => (Ok a, s')
    | (Raise _, s') => handler s'
    end.

Notation "x <- m ;; k" := (bind m (fun x => k))
  (at level 61, m at next level, right associativity).
Notation "m ;; k" := (bind m (fun _ => k))
  (at level 61, right associativity).

(** Module-level code and [search_path_for_discs] run over the world. *)
Definition M (A : Type) : Type := St world A.

(** A function body with one local variable of type [L]. *)
Definition lift {L A : Type} (m : M A) : St (L * world) A :=
  fun s =>
    match m (snd s) with
    | (r, w') => (r, (fst s, w'))
    end.

Definition load {L : Type} : St (L * world) L :=
  fun s => (Ok (fst s), s).

Definition store {L : Type} (v : L) : St (L * world) unit :=
  fun s => (Ok tt, (v, snd s)).

(** ** os, os.path, print *)

Definition os_path_isdir (path : string) : M bool :=
  fun w =>
    (Ok (match resolve w path with Some n => is_dir n | None => false end), w).

Definition os_path_isfile (path : string) : M bool :=
  fun w =>
    (Ok (match resolve w path with Some n => is_file n | None => false end), w).

Definition os_walk (top : string)
  : M (list (string * list string * list string)) :=
  fun w =>
    (Ok (match resolve w top with Some n => walk top n | None => [] end), w).

Definition os_getcwd : M string :=
  fun w => (Ok ("/" +++ String.concat "/" (cwd w)), w).

Definition print (line : string) : M unit :=
  fun w => (Ok tt, World (root w) (cwd w) (stdout w ++ [line])).

(** [sys.argv[i]]. *)
Definition argv_item (argv : list string) (i : nat) : M string :=
  match nth_error argv i with
  | Some a => ret a
  | None => raise IndexError
  end.

(* ================================================================== *)
(** * py7zr *)

(** A member of an archive: its name inside the archive, components
    separated by [/], what unpacking its payload gives (a directory
    member has no payload), and whether these bytes agree with the
    checksum stored for them. *)
Record entry : Type := Member {
  e_name : string;
  e_body : option string;
  e_intact : bool
}.

(** A member whose payload is intact. *)
Definition Entry (name : string) (body : option string) : entry :=
  Member name body true.

(** A name a directory entry can have. *)
Definition valid_name (c : string) : bool :=
  negb (String.eqb c "") && negb (String.eqb c ".") &&
  negb (String.eqb c "..") && negb (Str.mem "/" c).

(** The components of a member name; names that are empty, absolute or
    that step through [.] or [..] are refused. *)
Definition entry_path (name : string) : option (list string) :=
  let cs := Str.split_slash name in
  if forallb valid_name cs then Some cs else None.

(** A fresh chain of directories down to a new file or directory. *)
Fixpoint create (p : list string) (body : option string) : node :=
  match p with
  | [] => match body with Some b => File b | None => Dir [] end
  | c :: p' => Dir [(c, create p' body)]
  end.

(** One write into the tree, at the names [p] below [n].  Without a
    body it is [Path.mkdir(parents=True)], where a directory that is
    already there is left alone.  With a body it is what py7zr does for a
    file member: [parent.mkdir(parents=True, exist_ok=True)], then
    [open(mode="wb")] and the bytes.  A regular file on the way down is
    [NotADirectoryError] from the operating system, except where it is
    the parent that [mkdir] was asked to make: that is [FileExistsError].
    Nothing is written when the write fails. *)
Fixpoint write (p : list string) (body : option string) (n : node)
  : result node :=
  match p with
  | [] =>
      match body, n with
      | None, Dir _ => Ok n
      | None, File _ => Raise FileExistsError
      | Some b, File _ => Ok (File b)
      | Some _, Dir _ => Raise IsADirectoryError
      end
  | c :: p' =>
      match n with
      | File _ =>
          match body, p' with
          | Some _, [] => Raise FileExistsError
          | _, _ => Raise NotADirectoryError
          end
      | Dir es =>
          match lookup c es with
          | Some child =>
              match write p' body child with
              | Ok child' => Ok (Dir (update c child' es))
              | Raise e => Raise e
              end
          | None => Ok (Dir (es ++ [(c, create p' body)]))
          end
      end
  end.

(** [parent.mkdir(parents=True, exist_ok=True)], then [Path.touch()]:
    what is already at [p] is left as it is, a missing file is made
    empty. *)
Definition touch (p : list string) (t : node) : result node :=
  match get t p with
  | Some _ => Ok t
  | None => write p (Some "") t
  end.

(** ** extractall

    py7zr extracts in three passes.  First it goes through the members
    in archive order without writing anything: a name already in use is
    replaced by [name_0], [name_1], ...; a name that is not a path below
    the destination is refused; a directory member is kept for the second
    pass unless something is already at its place; a file member is kept
    for the third pass.  Then it makes the kept directories, in sorted
    order, and then it writes the files, checking each payload once
    written.

    The model takes the members to be directories and regular files
    (no links), their payloads to be one solid block, which py7zr
    unpacks in archive order, and their names to be relative paths of
    plain components: what py7zr makes of a name with an empty
    component, a [.] or a [..] is not modelled, such a name is refused
    here like the names that leave the destination. *)

(** [outname = f.filename + "_%d" % i] for the first [i] that is not in
    use; the loop ends within [fuel] rounds when [fuel] is the length of
    [fnames]. *)
Fixpoint fresh_name (fuel i : nat) (fnames : list string) (name : string)
  : string :=
  let outname := name +++ "_" +++ Str.str i in
  match fuel with
  | 0 => outname
  | S fuel' =>
      if existsb (String.eqb outname) fnames
      then fresh_name fuel' (S i) fnames name
      else outname
  end.

(** The name a member is written under, [fnames] being the names the
    members before it are written under. *)
Definition out_name (fnames : list string) (name : string) : string :=
  if existsb (String.eqb name) fnames
  then fresh_name (length fnames) 0 fnames name
  else name.

(** The first pass: the directories to make and the files to write, as
    paths from the root, or the first refusal.  The working directory is
    asked for with every member and has to be there. *)
Fixpoint plan_members (t : node) (here : list string) (fnames : list string)
    (es : list entry)
  : result (list (list string) * list (list string * string * bool)) :=
  match es with
  | [] => Ok ([], [])
  | e :: es' =>
      if Str.startswith (e_name e) "../" then Raise Bad7zFile
      else
        let outname := out_name fnames (e_name e) in
        match get t here with
        | Some (Dir _) =>
            match entry_path outname with
            | None => Raise Bad7zFile
            | Some p =>
                match plan_members t here (outname :: fnames) es' with
                | Raise x => Raise x
                | Ok (dirs, files) =>
                    match e_body e with
                    | None =>
                        match get t (here ++ p) with
                        | Some _ => Ok (dirs, files)
                        | None => Ok ((here ++ p) :: dirs, files)
                        end
                    | Some b =>
                        Ok (dirs, (here ++ p, b, e_intact e) :: files)
                    end
                end
            end
        | _ => Raise FileNotFoundError
        end
  end.

(** The order of [sorted] on paths: name by name. *)
Fixpoint path_leb (p q : list string) : bool :=
  match p, q with
  | [], _ => true
  | _ :: _, [] => false
  | c :: p', d :: q' =>
      if String.eqb c d then path_leb p' q' else String.leb c d
  end.

Fixpoint insert_path (p : list string) (l : list (list string))
  : list (list string) :=
  match l with
  | [] => [p]
  | q :: l' => if path_leb p q then p :: l else q :: insert_path p l'
  end.

Definition sort_paths (l : list (list string)) : list (list string) :=
  fold_right insert_path [] l.

(** The second pass, [mkdir(parents=True)] for each kept directory; a
    directory that has come to be there in the meantime is fine, a
    regular file is not.  What was made before a failure stays. *)
Fixpoint make_dirs (dirs : list (list string)) (t : node)
  : result unit * node :=
  match dirs with
  | [] => (Ok tt, t)
  | d :: dirs' =>
      match write d None t with
      | Ok t' => make_dirs dirs' t'
      | Raise FileExistsError => (Raise DecompressionError, t)
      | Raise x => (Raise x, t)
      end
  end.

(** The third pass.  A member without bytes is only touched; the bytes
    of another one are written, and that they do not agree with the
    checksum is found out afterwards. *)
Fixpoint write_files (files : list (list string * string * bool)) (t : node)
  : result unit * node :=
  match files with
  | [] => (Ok tt, t)
  | (p, b, intact) :: files' =>
      if String.eqb b ""
      then
        match touch p t with
        | Ok t' => write_files files' t'
        | Raise x => (Raise x, t)
        end
      else
        match write p (Some b) t with
        | Ok t' =>
            if intact then write_files files' t' else (Raise CrcError, t')
        | Raise x => (Raise x, t)
        end
  end.

Section Program.

(** The 7z container format is py7zr's business: [decode_7z] reads the
    member list out of the bytes of a file, or fails on bytes that are
    not an archive it can read. *)
Variable decode_7z : string -> option (list entry).

(** [py7zr.SevenZipFile(path, mode='r')]: the opened archive. *)
Definition SevenZipFile (path : string) : M (list entry) :=
  fun w =>
    match resolve w path with
    | None => (Raise FileNotFoundError, w)
    | Some (Dir _) => (Raise IsADirectoryError, w)
    | Some (File bytes) =>
        match decode_7z bytes with
        | Some es => (Ok es, w)
        | None => (Raise Bad7zFile, w)
        end
    end.

(** [archive.getnames()]. *)
Definition getnames (archive : list entry) : list string :=
  map e_name archive.

(** [archive.extractall()], without a path: into the current working
    directory. *)
Definition extractall (archive : list entry) : M unit :=
  fun w =>
    match plan_members (root w) (cwd w) [] archive with
    | Raise x => (Raise x, w)
    | Ok (dirs, files) =>
        match make_dirs (sort_paths dirs) (root w) with
        | (Raise x, t1) => (Raise x, set_root t1 w)
        | (Ok _, t1) =>
            match write_files files t1 with
            | (r, t2) => (r, set_root t2 w)
            end
        end
    end.

(* ================================================================ *)
(** * Optimize-Disc.py *)

(** What the name [archive] of [extract_archive] can be bound to. *)
Inductive pyval : Type :=
| PStr (s : string)
| PSevenZipFile (h : list entry).

(** [py7zr.SevenZipFile(v, mode='r')] *)
Definition SevenZipFile_of (v : pyval) : M (list entry) :=
  match v with
  | PStr path => SevenZipFile path
  | PSevenZipFile _ => raise TypeError
  end.

(** [v.extractall()] *)
Definition extractall_of (v : pyval) : M unit :=
  match v with
  | PSevenZipFile h => extractall h
  | PStr _ => raise AttributeError
  end.

(** ["..." + v]: [str] can only be concatenated with [str]. *)
Definition str_add {S : Type} (s : string) (v : pyval) : St S string :=
  match v with
  | PStr t => ret (s +++ t)
  | PSevenZipFile _ => raise TypeError
  end.

(** [[
def extract_archive(archive):
    try:
        with py7zr.SevenZipFile(archive, mode='r') as archive:
            archive.extractall()
    except:
        print("Error extracting " + archive)
    ]]
    The [with] statement assigns the opened archive to the name
    [archive], the parameter itself; the handler reads that name. *)
Definition extract_archive_body : St (pyval * world) unit :=
  try_except
    (a <- load ;;
     opened <- lift (SevenZipFile_of a) ;;
     store (PSevenZipFile opened) ;;
     a <- load ;;
     lift (extractall_of a))
    (a <- load ;;
     msg <- str_add "Error extracting " a ;;
     lift (print msg)).

Definition extract_archive (archive : string) : M unit :=
  fun w =>
    match extract_archive_body (PStr archive, w) with
    | (r, s) => (r, snd s)
    end.

Definition supported_archives : list string :=
  [".7z"; ".gz"; ".rar"; ".zip"].

Definition supported_discs : list string :=
  [".iso"; ".bin"; ".cue"; ".gdi"; ".raw"; ".chd"].

(** The two nested [for] loops of the directory case, appending to
    [found_discs]. *)
Definition scan_files (root : string) (files : list string)
    (found_discs : list string) : list string :=
  fold_left
    (fun found file =>
       if Str.endswith_tuple file supported_discs
       then found ++ [PosixPath.join root file]
       else found)
    files found_discs.

Definition scan_walk (triples : list (string * list string * list string))
    (found_discs : list string) : list string :=
  fold_left
    (fun found t =>
       match t with (root, _, files) => scan_files root files found end)
    triples found_discs.

(** [[
def search_path_for_discs(path):
    found_discs = []
    if os.path.isdir(path):
        for root, dirs, files in os.walk(path):
            for file in files:
                if file.endswith((supported_discs)):
                    found_discs.append(os.path.join(root, file))
    elif os.path.isfile(path):
        if path.endswith((supported_archives)):
            with py7zr.SevenZipFile(path, mode='r') as archive:
                found_discs.extend([entry for entry in archive.getnames()
                                    if entry.endswith((supported_discs))])
    return found_discs
    ]] *)
Definition search_path_for_discs (path : string) : M (list string) :=
  let found_discs := [] in
  isdir <- os_path_isdir path ;;
  if isdir : bool then
    triples <- os_walk path ;;
    ret (scan_walk triples found_discs)
  else
    isfile <- os_path_isfile path ;;
    if isfile : bool then
      if Str.endswith_tuple path supported_archives then
        archive <- SevenZipFile path ;;
        ret (found_discs ++
             filter (fun entry => Str.endswith_tuple entry supported_discs)
                    (getnames archive))
      else ret found_discs
    else ret found_discs.

(** The module-level code, with [sys.argv] as [argv]. *)
Definition main (argv : list string) : M unit :=
  if Nat.eqb (length argv) 1 then
    d <- os_getcwd ;;
    search_path_for_discs d ;;
    d <- os_getcwd ;;
    found <- search_path_for_discs d ;;
    if Nat.eqb (length found) 0 then
      print "No supported disc files found in current directory"
    else
      d <- os_getcwd ;;
      found <- search_path_for_discs d ;;
      if Nat.ltb 0 (length found) then
        d <- os_getcwd ;;
        found <- search_path_for_discs d ;;
        print ("Found " +++ Str.str (length found) +++
               " supported disc files in current directory")
      else ret tt
  else
    a <- argv_item argv 1 ;;
    search_path_for_discs a ;;
    a <- argv_item argv 1 ;;
    found <- search_path_for_discs a ;;
    if Nat.eqb (length found) 0 then
      a <- argv_item argv 1 ;;
      print ("No supported disc files found in " +++ a)
    else
      a <- argv_item argv 1 ;;
      found <- search_path_for_discs a ;;
      if Nat.ltb 0 (length found) then
        a <- argv_item argv 1 ;;
        found <- search_path_for_discs a ;;
        a' <- argv_item argv 1 ;;
        print ("Found " +++ Str.str (length found) +++
               " supported disc files in " +++ a')
      else ret tt.

End Program.

(* ================================================================== *)
(** * Vocabulary of the specification *)

(** [s] ends with one of the suffixes [sufs], compared character by
    character. *)
Definition has_suffix_in (sufs : list string) (s : string) : Prop :=
  exists suf pre, In suf sufs /\ s = pre +++ suf.

(** [os.path.basename]: what follows the last slash, the name of the file
    a path leads to. *)
Definition basename (path : string) : string :=
  last (Str.split_slash path) "".

(** [reaches n p m]: going down from [n] through the entries named [p], one
    directory level per name, ends at [m]. *)
Inductive reaches : node -> list string -> node -> Prop :=
| reaches_here n : reaches n [] n
| reaches_down es name sub p m :
    In (name, sub) es -> reaches sub p m -> reaches (Dir es) (name :: p) m.

(** The name [os.walk] gives to the directory at [p] below [top]. *)
Definition joins (top : string) (p : list string) : string :=
  fold_left PosixPath.join p top.

(** A tree as a filesystem has it: entry names are real file names and
    are distinct within a directory. *)
#[local] Unset Elimination Schemes.
Inductive wf_node : node -> Prop :=
| wf_file data : wf_node (File data)
| wf_dir es :
    NoDup (map fst es) ->
    Forall (fun e => valid_name (fst e) = true) es ->
    Forall (fun e => wf_node (snd e)) es ->
    wf_node (Dir es).
#[local] Set Elimination Schemes.

(** [s] lies under the path [D]: it is [D] followed by more, and the two
    meet at a separator. *)
Definition under_path (D s : string) : Prop :=
  exists rest,
    s = D +++ rest /\
    (Str.endswith D "/" = true \/ Str.startswith rest "/" = true).

(** The files of one directory that the scan keeps, under their joined
    names. *)
Definition matching (root : string) (files : list string) : list string :=
  map (PosixPath.join root)
      (filter (fun f => Str.endswith_tuple f supported_discs) files).

(** [p] is a prefix of [q], as lists of names. *)
Fixpoint prefixb (p q : list string) : bool :=
  match p, q with
  | [], _ => true
  | _ :: _, [] => false
  | c :: p', d :: q' => String.eqb c d && prefixb p' q'
  end.




(** Two members can live in one tree: a regular file is not also a
    directory above another member, and one path holds one thing. *)
Definition compatible (q1 : list string) (b1 : option string)
    (q2 : list string) (b2 : option string) : Prop :=
  (q1 = q2 -> b1 = b2) /\
  (prefixb q1 q2 = true -> q1 <> q2 -> b1 = None) /\
  (prefixb q2 q1 = true -> q2 <> q1 -> b2 = None).








(** The bytes a 7z archive begins with, and those of the other archive
    formats the script names: ZIP, gzip and RAR. *)
Definition sevenzip_magic : string :=
  String "7" (String "z"
    (String (ascii_of_nat 188) (String (ascii_of_nat 175)
      (String (ascii_of_nat 39) (String (ascii_of_nat 28) ""))))).

Definition zip_magic : string :=
  String "P" (String "K"
    (String (ascii_of_nat 3) (String (ascii_of_nat 4) ""))).

Definition gzip_magic : string :=
  String (ascii_of_nat 31) (String (ascii_of_nat 139) "").

Definition rar_magic : string :=
  String "R" (String "a" (String "r" (String "!"
    (String (ascii_of_nat 26) (String (ascii_of_nat 7) ""))))).

(** The file is a ZIP, gzip or RAR archive, by its first bytes. *)
Definition foreign_archive (bytes : string) : bool :=
  existsb (Str.startswith bytes) [zip_magic; gzip_magic; rar_magic].

(** py7zr reads the 7z format and no other: a ZIP, gzip or RAR archive
    is refused with [Bad7zFile], whatever the file is called. *)
Definition reads_no_foreign_archive
    (decode : string -> option (list entry)) : Prop :=
  forall bytes, foreign_archive bytes = true -> decode bytes = None.

(** Two observations of one filesystem state: the same files with the
    same bytes and the same directories with the same entries, listed in
    an order that may differ from one observation to the other. *)
#[local] Unset Elimination Schemes.
Inductive same_state : node -> node -> Prop :=
| same_file data : same_state (File data) (File data)
| same_dir es es1 es' :
    Forall2 (fun a b => fst a = fst b /\ same_state (snd a) (snd b)) es es1 ->
    Permutation es1 es' ->
    same_state (Dir es) (Dir es').
#[local] Set Elimination Schemes.

(** The same tree with every directory listed backwards. *)
Fixpoint relist (n : node) : node :=
  match n with
  | File data => File data
  | Dir es =>
      Dir (rev (map (fun e => match e with
                              | (name, sub) => (name, relist sub)
                              end) es))
  end.

Definition entry_rel (a b : string * node) : Prop :=
  fst a = fst b /\ same_state (snd a) (snd b).

Definition same_world (w w' : world) : Prop :=
  same_state (root w) (root w') /\ cwd w = cwd w' /\ stdout w = stdout w'.

(** Two outcomes with the same strings, each as often, in any order; or
    the same exception. *)
Definition same_results (r r' : result (list string)) : Prop :=
  match r, r' with
  | Ok l, Ok l' => Permutation l l'
  | Raise e, Raise e' => e = e'
  | _, _ => False
  end.

(** What the scan keeps of one entry of the directory called [top]. *)
Definition discs_here (top : string) (e : string * node) : list string :=
  if is_file (snd e) && Str.endswith_tuple (fst e) supported_discs
  then [PosixPath.join top (fst e)]
  else [].

(** The summary line of the command line interface, as the specification
    words it. *)
Definition summary_line (count : nat) (where_ : string) : string :=
  match count with
  | 0 => "No supported disc files found in " +++ where_
  | S _ => "Found " +++ Str.str count +++ " supported disc files in " +++ where_
  end.

(* ================================================================== *)
(** * A small disk *)

Module Demo.

(** A stand-in for the container format: two byte strings are archives,
    every other one is not. *)
Definition toy_7z (bytes : string) : option (list entry) :=
  if String.eqb bytes "7z:discs" then
    Some [Entry "game.iso" (Some "G"); Entry "readme.txt" (Some "R");
          Entry "track.bin" (Some "T")]
  else if String.eqb bytes "7z:blank" then
    Some [Entry "game.iso" (Some ""); Entry "readme.txt" (Some "");
          Entry "track.bin" (Some "")]
  else if String.eqb bytes "7z:album" then
    Some [Entry "cd1" None; Entry "cd1/track.bin" (Some "T");
          Entry "cd1/track.cue" (Some "C")]
  else None.

Definition psx : node :=
  Dir [("ff7.bin", File "b"); ("ff7.cue", File "c");
       ("cover.png", File "p")].

Definition roms : node :=
  Dir [("GAME.ISO", File "u"); ("doom.iso", File "d"); ("psx", psx)].

Definition home : node :=
  Dir [("a.zip", File "7z:discs"); ("good.zip", File "7z:album");
       ("corrupt.7z", File "not an archive"); ("notes.txt", File "n");
       ("roms", roms)].

Definition disk : world := World (Dir [("home", home)]) ["home"] [].

(** The same disk, every directory listed backwards. *)
Definition disk_relisted : world :=
  World (relist (root disk)) (cwd disk) (stdout disk).

(** Another disk, where [a.zip] has the same member names and other
    bytes in them. *)
Definition disk_blank : world :=
  World (Dir [("home", Dir [("a.zip", File "7z:blank")])]) ["home"] [].

(** A working directory where a regular file called [cd1] stands where
    the archive [good.zip] has a directory. *)
Definition blocked : world :=
  World (Dir [("home", Dir [("good.zip", File "7z:album");
                            ("cd1", File "scratch")])])
        ["home"] [].

End Demo.

(* ================================================================== *)
(** * The scan in closed form *)

(** The disc files of a tree as paths relative to it, in the order of the
    scan: the files of a directory itself, then those of each entry
    below it. *)
Fixpoint disc_paths (n : node) : list (list string) :=
  match n with
  | File _ => []
  | Dir es =>
      flat_map
        (fun e =>
           if is_file (snd e) && Str.endswith_tuple (fst e) supported_discs
           then [[fst e]]
           else [])
        es ++
      (fix below (l : list (string * node)) :=
         match l with
         | [] => []
         | (name, sub) :: l' => map (cons name) (disc_paths sub) ++ below l'
         end) es
  end.

(** A relative path written after [top]: a separator unless [top] ends
    with one, then the names separated by slashes. *)
Definition render (top : string) (l : list string) : string :=
  top +++ (if Str.endswith top "/" then "" else "/") +++ String.concat "/" l.

(** The strings of an outcome, none when it is an exception. *)
Definition results (r : result (list string)) : list string :=
  match r with
  | Ok l => l
  | Raise _ => []
  end.

(** [s] names a regular file below the directory [n] scanned as [D]: it
    is [D], a slash unless [D] ends with one, and then the names of the
    directory entries that lead from [n] down to that file, separated by
    slashes; none of these names is empty, [.] or [..], or holds a
    slash. *)
Definition names_file_below (D : string) (n : node) (s : string) : Prop :=
  exists l data,
    l <> [] /\ Forall (fun c => valid_name c = true) l /\
    get n l = Some (File data) /\
    s = render D l.

(** A second small disk: an archive whose first member can be written
    and whose second cannot, [cd1] being a regular file. *)
Module Demo2.

Definition toy_7z (bytes : string) : option (list entry) :=
  if String.eqb bytes "7z:mixed" then
    Some [Entry "ok.iso" (Some "x"); Entry "cd1/track.bin" (Some "T")]
  else None.

Definition half_blocked : world :=
  World (Dir [("home", Dir [("mixed.7z", File "7z:mixed");
                            ("cd1", File "scratch")])])
        ["home"] [].

Definition half_written : world :=
  World (Dir [("home", Dir [("mixed.7z", File "7z:mixed");
                            ("cd1", File "scratch");
                            ("ok.iso", File "x")])])
        ["home"] [].

End Demo2.

(** A disk with a ZIP archive and a 7z archive, and a reader in the
    manner of py7zr: it looks for the 7z signature first. *)
Module Demo3.

Definition toy_7z (bytes : string) : option (list entry) :=
  if Str.startswith bytes sevenzip_magic then
    Some [Entry "game.iso" (Some "G"); Entry "readme.txt" (Some "R");
          Entry "track.bin" (Some "T")]
  else None.

Definition zip_bytes : string :=
  zip_magic +++ "game.iso readme.txt track.bin".

Definition sevenzip_bytes : string :=
  sevenzip_magic +++ "game.iso readme.txt track.bin".

Definition disk : world :=
  World (Dir [("home", Dir [("a.zip", File zip_bytes);
                            ("a.7z", File sevenzip_bytes)])])
        ["home"] [].

End Demo3.

(* ================================================================== *)
(** * Strings and paths *)

Section StringFacts.

Lemma append_nil_r (s : string) : s +++ "" = s.
Proof. induction s; simpl; congruence. Qed.

Lemma append_assoc (a b c : string) : (a +++ b) +++ c = a +++ b +++ c.
Proof. induction a; simpl; congruence. Qed.

Lemma endswith_spec (s suf : string) :
  Str.endswith s suf = true <-> exists pre, s = pre +++ suf.
Proof.
  induction s as [|c s IH]; cbn [Str.endswith].
  - rewrite orb_false_r, String.eqb_eq. split.
    + intros <-. now exists "".
    + intros [[|? ?] H]; simpl in H; [auto | discriminate].
  - rewrite orb_true_iff, String.eqb_eq, IH. split.
    + intros [<- | [pre ->]]; [now exists "" | now exists (String c pre)].
    + intros [[|d pre] H]; simpl in H; [now left |].
      right. exists pre. congruence.
Qed.

Lemma endswith_tuple_spec (s : string) (sufs : list string) :
  Str.endswith_tuple s sufs = true <-> has_suffix_in sufs s.
Proof.
  unfold Str.endswith_tuple, has_suffix_in. rewrite existsb_exists. split.
  - intros (suf & Hin & H). apply endswith_spec in H as [pre ->]. eauto.
  - intros (suf & pre & Hin & ->). exists suf. split; [assumption |].
    apply endswith_spec. eauto.
Qed.

Lemma has_suffix_in_app (sufs : list string) (a b : string) :
  has_suffix_in sufs b -> has_suffix_in sufs (a +++ b).
Proof.
  intros (suf & pre & Hin & ->). exists suf, (a +++ pre).
  now rewrite append_assoc.
Qed.

Lemma startswith_spec (s p : string) :
  Str.startswith s p = true <-> exists rest, s = p +++ rest.
Proof.
  revert s. induction p as [|a p IH]; intros s; simpl.
  - split; [intros _; now exists s | reflexivity].
  - destruct s as [|b s].
    + split; [discriminate | intros [? ?]; discriminate].
    + rewrite andb_true_iff, Ascii.eqb_eq, IH. split.
      * intros [<- [rest ->]]. eauto.
      * intros [rest H]. injection H as <- ->. eauto.
Qed.

(** [os.path.join] keeps its second argument at the end. *)
Lemma join_suffix (a b : string) : exists pre, PosixPath.join a b = pre +++ b.
Proof.
  unfold PosixPath.join.
  destruct (Str.startswith b "/"); [now exists "" |].
  destruct (_ || _); [now exists a |].
  exists (a +++ "/"). now rewrite append_assoc.
Qed.

(** ... and its first argument at the start, when the second is
    relative; a separator is added unless the first already ends with
    one. *)
Lemma join_prefix (a b : string) :
  Str.startswith b "/" = false ->
  exists sep,
    PosixPath.join a b = a +++ sep +++ b /\
    (sep = "/" \/ sep = "" /\ (a = "" \/ Str.endswith a "/" = true)).
Proof.
  unfold PosixPath.join. intros ->.
  destruct (String.eqb a "" || Str.endswith a "/") eqn:E.
  - exists "". split; [reflexivity |]. right. split; [reflexivity |].
    apply orb_true_iff in E as [E | E]; [left; now apply String.eqb_eq | now right].
  - exists "/". auto.
Qed.

Lemma mem_startswith (c : string) :
  Str.mem "/" c = false -> Str.startswith c "/" = false.
Proof.
  destruct c as [|a c]; cbn [Str.mem Str.startswith]; [reflexivity |].
  rewrite orb_false_iff, andb_true_r. tauto.
Qed.

Lemma valid_name_relative (c : string) :
  valid_name c = true -> Str.startswith c "/" = false.
Proof.
  unfold valid_name. rewrite !andb_true_iff, !negb_true_iff.
  intros (_ & H). now apply mem_startswith.
Qed.

Lemma split_slash_nonempty (s : string) : Str.split_slash s <> [].
Proof.
  destruct s as [|c s]; cbn [Str.split_slash]; [discriminate |].
  destruct (Ascii.eqb c "/"); [discriminate |].
  destruct (Str.split_slash s); discriminate.
Qed.

Lemma split_slash_single (s h : string) :
  Str.split_slash s = [h] -> s = h.
Proof.
  revert h. induction s as [|c s IH]; intros h; cbn [Str.split_slash].
  - congruence.
  - destruct (Ascii.eqb c "/").
    + intros H. injection H as _ H. now apply split_slash_nonempty in H.
    + destruct (Str.split_slash s) as [|h' t] eqn:E.
      * now apply split_slash_nonempty in E.
      * intros H. injection H as <- ->. f_equal. now apply IH.
Qed.

Lemma split_slash_no_slash (s : string) :
  Str.mem "/" s = false -> Str.split_slash s = [s].
Proof.
  induction s as [|c s IH]; cbn [Str.split_slash Str.mem]; [reflexivity |].
  rewrite orb_false_iff, Ascii.eqb_sym. intros [-> H].
  now rewrite (IH H).
Qed.

(** A suffix without a slash is a suffix of the path exactly when it is
    one of the name the path ends in. *)
Lemma endswith_basename (path suf : string) :
  Str.mem "/" suf = false ->
  Str.endswith path suf = Str.endswith (basename path) suf.
Proof.
  intros Hsuf. unfold basename.
  induction path as [|c path IH]; [reflexivity |].
  cbn [Str.split_slash Str.endswith].
  destruct (Ascii.eqb c "/") eqn:Ec.
  - apply Ascii.eqb_eq in Ec as ->.
    replace (String.eqb (String "/" path) suf) with false.
    + cbn [orb]. rewrite IH.
      destruct (Str.split_slash path) eqn:E; [| reflexivity].
      now apply split_slash_nonempty in E.
    + symmetry. apply String.eqb_neq. intros <-.
      cbn [Str.mem] in Hsuf. now rewrite Ascii.eqb_refl in Hsuf.
  - destruct (Str.split_slash path) as [|h [|h2 t]] eqn:E.
    + now apply split_slash_nonempty in E.
    + apply split_slash_single in E as ->. reflexivity.
    + replace (String.eqb (String c path) suf) with false.
      * cbn [orb]. rewrite IH. reflexivity.
      * symmetry. apply String.eqb_neq. intros <-.
        apply split_slash_no_slash in Hsuf.
        cbn [Str.split_slash] in Hsuf. rewrite Ec, E in Hsuf.
        discriminate.
Qed.

Lemma archive_suffix_of_name (path : string) :
  Str.endswith_tuple path supported_archives =
  Str.endswith_tuple (basename path) supported_archives.
Proof.
  unfold Str.endswith_tuple, supported_archives. cbn [existsb].
  now rewrite !(endswith_basename path) by reflexivity.
Qed.

Lemma startswith_app (a b p : string) :
  Str.startswith a p = true -> Str.startswith (a +++ b) p = true.
Proof.
  rewrite !startswith_spec. intros [rest ->]. exists (rest +++ b).
  now rewrite append_assoc.
Qed.

(** One more relative name joined to a path under [D] stays under
    [D]. *)
Lemma join_under_path (D r c : string) :
  D <> "" ->
  r = "" \/ under_path D (D +++ r) ->
  Str.startswith c "/" = false ->
  under_path D (PosixPath.join (D +++ r) c).
Proof.
  intros HD Hr Hc. destruct (join_prefix (D +++ r) c Hc) as (sep & -> & Hsep).
  exists (r +++ sep +++ c). split; [now rewrite append_assoc |].
  destruct Hr as [-> | (r' & Heq & Hr)].
  - cbn [String.append]. destruct Hsep as [-> | [-> [H | H]]].
    + now right.
    + rewrite append_nil_r in H. contradiction.
    + rewrite append_nil_r in H. now left.
  - assert (r' = r) as ->.
    { clear - Heq. induction D as [|a D IH]; cbn in Heq; [congruence |].
      injection Heq as Heq. auto. }
    destruct Hr as [Hr | Hr]; [now left |].
    right. now apply startswith_app.
Qed.

Lemma split_slash_app (c rest : string) :
  Str.mem "/" c = false ->
  Str.split_slash (c +++ String "/" rest) = c :: Str.split_slash rest.
Proof.
  induction c as [|a c IH]; cbn [Str.mem String.append Str.split_slash].
  - reflexivity.
  - rewrite orb_false_iff, Ascii.eqb_sym. intros [-> H].
    now rewrite (IH H).
Qed.

Lemma split_slash_concat (c : string) (cs : list string) :
  Forall (fun c => Str.mem "/" c = false) (c :: cs) ->
  Str.split_slash (String.concat "/" (c :: cs)) = c :: cs.
Proof.
  revert c. induction cs as [|c2 cs IH]; intros c H.
  - cbn [String.concat]. apply split_slash_no_slash. now inversion H.
  - inversion H as [|? ? Hc Hcs]; subst.
    cbn [String.concat String.append].
    rewrite split_slash_app by assumption. f_equal. now apply IH.
Qed.

Lemma valid_name_no_slash (c : string) :
  valid_name c = true -> Str.mem "/" c = false.
Proof.
  unfold valid_name. rewrite !andb_true_iff, !negb_true_iff. tauto.
Qed.

End StringFacts.

(* ================================================================== *)
(** * The directory walk *)

Section WalkFacts.

Lemma walk_dir (top : string) (es : list (string * node)) :
  walk top (Dir es) =
  (top, dirnames es, filenames es) ::
  flat_map (fun e => walk (PosixPath.join top (fst e)) (snd e)) es.
Proof.
  cbn [walk]. f_equal.
  induction es as [|[name sub] es IH]; [reflexivity |].
  cbn [flat_map fst snd]. now rewrite IH.
Qed.

Lemma reaches_file_inv data p m :
  reaches (File data) p m -> p = [] /\ m = File data.
Proof. inversion 1; auto. Qed.

Lemma joins_cons top name p :
  joins top (name :: p) = joins (PosixPath.join top name) p.
Proof. reflexivity. Qed.

(** The triples of [os.walk] are the directories of the subtree. *)
Lemma walk_reaches (n : node) : forall top t,
  In t (walk top n) <->
  exists p es, reaches n p (Dir es) /\
               t = (joins top p, dirnames es, filenames es).
Proof.
  induction n as [data | es IH] using node_ind; intros top t.
  - split; [intros [] |].
    intros (p & es & H & _). apply reaches_file_inv in H as [_ H].
    discriminate.
  - rewrite walk_dir. cbn [In]. rewrite in_flat_map. split.
    + intros [<- | ([name sub] & Hin & Ht)].
      * exists [], es. split; [constructor | reflexivity].
      * rewrite Forall_forall in IH. apply (IH _ Hin) in Ht.
        destruct Ht as (p & es' & Hr & ->).
        exists (name :: p), es'. split; [| reflexivity].
        econstructor; eassumption.
    + intros (p & es' & Hr & ->).
      inversion Hr as [| es0 name sub p0 m Hin Hsub]; subst.
      * now left.
      * right. exists (name, sub). split; [assumption |].
        rewrite Forall_forall in IH. apply (IH _ Hin).
        exists p0, es'. split; [assumption | reflexivity].
Qed.

Lemma filenames_In (es : list (string * node)) (f : string) :
  In f (filenames es) <-> exists data, In (f, File data) es.
Proof.
  unfold filenames. rewrite in_map_iff. split.
  - intros ([name n] & <- & H). apply filter_In in H as [H Hf].
    destruct n; [eauto | discriminate].
  - intros (data & H). exists (f, File data). split; [reflexivity |].
    apply filter_In. auto.
Qed.

Lemma dirnames_In (es : list (string * node)) (d : string) :
  In d (dirnames es) <-> exists sub, In (d, Dir sub) es.
Proof.
  unfold dirnames. rewrite in_map_iff. split.
  - intros ([name n] & <- & H). apply filter_In in H as [H Hf].
    destruct n; [discriminate | eauto].
  - intros (sub & H). exists (d, Dir sub). split; [reflexivity |].
    apply filter_In. auto.
Qed.

(** The loops only ever append: their result is the accumulator followed
    by the joined names of the matching files. *)
Lemma scan_files_eq root files : forall found,
  scan_files root files found = found ++ matching root files.
Proof.
  unfold scan_files, matching.
  induction files as [|f files IH]; intros found; cbn [fold_left filter].
  - now rewrite app_nil_r.
  - rewrite IH. destruct (Str.endswith_tuple f supported_discs).
    + now rewrite <- app_assoc.
    + reflexivity.
Qed.

Lemma scan_walk_eq triples : forall found,
  scan_walk triples found =
  found ++ flat_map (fun t => matching (fst (fst t)) (snd t)) triples.
Proof.
  unfold scan_walk.
  induction triples as [|[[r ds] fs] ts IH]; intros found;
    cbn [fold_left flat_map fst snd].
  - now rewrite app_nil_r.
  - rewrite IH, scan_files_eq. now rewrite <- app_assoc.
Qed.

Lemma scan_walk_In triples s :
  In s (scan_walk triples []) <->
  exists r ds fs f, In (r, ds, fs) triples /\ In f fs /\
    Str.endswith_tuple f supported_discs = true /\
    s = PosixPath.join r f.
Proof.
  rewrite scan_walk_eq. cbn [app]. rewrite in_flat_map. split.
  - intros ([[r ds] fs] & Ht & Hs). unfold matching in Hs.
    cbn [fst snd] in Hs. apply in_map_iff in Hs as (f & <- & Hf).
    apply filter_In in Hf as [Hf Hm]. exists r, ds, fs, f. auto.
  - intros (r & ds & fs & f & Ht & Hf & Hm & ->).
    exists (r, ds, fs). split; [assumption |].
    unfold matching. cbn [fst snd]. apply in_map. apply filter_In. auto.
Qed.

End WalkFacts.

(* ================================================================== *)
(** * search_path_for_discs *)

Section SearchFacts.

Variable decode_7z : string -> option (list entry).

(** The three cases of the function, one equation each. *)
Lemma search_dir (w : world) (path : string) (n : node) :
  resolve w path = Some n -> is_dir n = true ->
  search_path_for_discs decode_7z path w =
  (Ok (scan_walk (walk path n) []), w).
Proof.
  intros Hr Hd.
  unfold search_path_for_discs, bind, os_path_isdir, os_walk, ret.
  rewrite Hr, Hd. now rewrite Hr.
Qed.

Lemma search_file (w : world) (path bytes : string) :
  resolve w path = Some (File bytes) ->
  search_path_for_discs decode_7z path w =
  if Str.endswith_tuple path supported_archives then
    match decode_7z bytes with
    | Some es =>
        (Ok (filter (fun entry => Str.endswith_tuple entry supported_discs)
                    (getnames es)), w)
    | None => (Raise Bad7zFile, w)
    end
  else (Ok [], w).
Proof.
  intros Hr.
  unfold search_path_for_discs, bind, os_path_isdir, os_path_isfile,
    SevenZipFile, ret.
  rewrite Hr. cbn [is_dir is_file]. rewrite Hr. cbn [is_file].
  destruct (Str.endswith_tuple path supported_archives); [| reflexivity].
  rewrite Hr. now destruct (decode_7z bytes).
Qed.

Lemma search_missing (w : world) (path : string) :
  resolve w path = None ->
  search_path_for_discs decode_7z path w = (Ok [], w).
Proof.
  intros Hr.
  unfold search_path_for_discs, bind, os_path_isdir, os_path_isfile, ret.
  rewrite Hr. now rewrite Hr.
Qed.

(** The function never changes the world, whatever it returns. *)
Lemma search_frame (w : world) (path : string) :
  snd (search_path_for_discs decode_7z path w) = w.
Proof.
  destruct (resolve w path) as [[bytes | es] |] eqn:Hr.
  - rewrite (search_file _ _ _ Hr).
    destruct (Str.endswith_tuple path supported_archives); [| reflexivity].
    now destruct (decode_7z bytes).
  - now rewrite (search_dir _ _ _ Hr eq_refl).
  - now rewrite (search_missing _ _ Hr).
Qed.

Lemma search_eta (w : world) (path : string) :
  search_path_for_discs decode_7z path w =
  (fst (search_path_for_discs decode_7z path w), w).
Proof.
  rewrite <- (search_frame w path) at 3. apply surjective_pairing.
Qed.

(** What the scan of the tree [n] under the name [top] keeps. *)
Lemma scan_tree_In (top : string) (n : node) (s : string) :
  In s (scan_walk (walk top n) []) <->
  exists p es file data,
    reaches n p (Dir es) /\ In (file, File data) es /\
    has_suffix_in supported_discs file /\
    s = PosixPath.join (joins top p) file.
Proof.
  rewrite scan_walk_In. split.
  - intros (r & ds & fs & f & Ht & Hf & Hm & ->).
    apply walk_reaches in Ht as (p & es & Hreach & Heq).
    injection Heq as -> -> ->.
    apply filenames_In in Hf as [data Hf].
    exists p, es, f, data. rewrite <- endswith_tuple_spec. auto.
  - intros (p & es & f & data & Hreach & Hf & Hm & ->).
    exists (joins top p), (dirnames es), (filenames es), f.
    repeat split.
    + apply walk_reaches. eauto.
    + apply filenames_In. eauto.
    + now apply endswith_tuple_spec.
Qed.

(** C1. On an existing directory [D] the function returns, leaves the
    world as it was, and its result holds exactly the regular files of
    the whole subtree of [D], at any depth, whose name ends with one of
    the disc suffixes, each as [os.path.join] of the name [os.walk]
    gives to its directory and of its own name. *)
Theorem search_directory_exact (w : world) (D : string) (n : node) :
  resolve w D = Some n -> is_dir n = true ->
  exists found,
    search_path_for_discs decode_7z D w = (Ok found, w) /\
    forall s,
      In s found <->
      exists p es file data,
        reaches n p (Dir es) /\ In (file, File data) es /\
        has_suffix_in supported_discs file /\
        s = PosixPath.join (joins D p) file.
Proof.
  intros Hr Hd. exists (scan_walk (walk D n) []).
  split; [now apply search_dir | apply scan_tree_In].
Qed.

(** C5. Whatever the path, every string of the result ends with one of
    the six disc suffixes; the comparison is exact, so that the name
    [GAME.ISO] ends with none of them. *)
Theorem search_results_have_disc_suffix :
  (forall (w : world) (path : string) (found : list string),
      fst (search_path_for_discs decode_7z path w) = Ok found ->
      Forall (has_suffix_in supported_discs) found) /\
  ~ has_suffix_in supported_discs "GAME.ISO".
Proof.
  split.
  - intros w path found H. apply Forall_forall. intros s Hs.
    destruct (resolve w path) as [[bytes | es] |] eqn:Hr.
    + rewrite (search_file _ _ _ Hr) in H.
      destruct (Str.endswith_tuple path supported_archives);
        [| injection H as <-; destruct Hs].
      destruct (decode_7z bytes); [| discriminate].
      injection H as <-. apply filter_In in Hs as [_ Hs].
      now apply endswith_tuple_spec.
    + rewrite (search_dir _ _ _ Hr eq_refl) in H. cbn [fst] in H.
      remember (walk path (Dir es)) as triples. injection H as <-.
      apply scan_walk_In in Hs as (r & ds & fs & f & _ & _ & Hm & ->).
      destruct (join_suffix r f) as [pre ->].
      apply has_suffix_in_app. now apply endswith_tuple_spec.
    + rewrite (search_missing _ _ Hr) in H. injection H as <-.
      destruct Hs.
  - rewrite <- endswith_tuple_spec. discriminate.
Qed.

Lemma resolve_nonempty (w : world) (path : string) (n : node) :
  resolve w path = Some n -> path <> "".
Proof. intros H ->. discriminate. Qed.

Lemma reaches_wf (n : node) (p : list string) (m : node) :
  reaches n p m -> wf_node n ->
  Forall (fun c => valid_name c = true) p /\ wf_node m.
Proof.
  induction 1 as [n | es name sub p m Hin Hr IH]; intros Hwf; [auto |].
  inversion Hwf as [| es0 _ Hnames Hsub]; subst.
  rewrite Forall_forall in Hnames, Hsub.
  destruct (IH (Hsub _ Hin)) as [Hp Hm]. split; [| assumption].
  constructor; [apply (Hnames _ Hin) | assumption].
Qed.

Lemma joins_under_path (D : string) (p : list string) :
  D <> "" ->
  Forall (fun c => valid_name c = true) p ->
  exists r, joins D p = D +++ r /\ (r = "" \/ under_path D (D +++ r)).
Proof.
  intros HD. induction p as [|c p IH] using rev_ind; intros Hp.
  - exists "". split; [symmetry; apply append_nil_r | now left].
  - apply Forall_app in Hp as [Hp Hc]. inversion Hc as [|? ? Hv _]; subst.
    destruct (IH Hp) as (r & Hr & Hu). unfold joins in *.
    rewrite fold_left_app. cbn [fold_left]. rewrite Hr.
    pose proof (join_under_path D r c HD Hu (valid_name_relative _ Hv))
      as Hj.
    destruct Hj as (r' & Heq & Hr'). exists r'. split; [assumption |].
    right. exists r'. rewrite <- Heq. auto.
Qed.

(** Through real file names, resolution goes down the tree as [get]
    does. *)
Lemma steps_get (p : list string) : forall n st,
  Forall (fun c => valid_name c = true) p ->
  match steps (n :: st) p with
  | Some (m :: _) => get n p = Some m
  | Some [] => False
  | None => get n p = None
  end.
Proof.
  induction p as [|c p IH]; intros n st Hp; [reflexivity |].
  inversion Hp as [|? ? Hc Hp']; subst.
  cbn [steps get step]. destruct n as [data | es]; [reflexivity |].
  unfold valid_name in Hc. rewrite !andb_true_iff, !negb_true_iff in Hc.
  destruct Hc as [[[-> ->] ->] _]. cbn [orb].
  destruct (lookup c es) as [child |]; [| reflexivity].
  now apply IH.
Qed.

(** The path [os.getcwd()] returns leads to the working directory. *)
Lemma resolve_getcwd (w : world) :
  is_dir (root w) = true ->
  Forall (fun c => valid_name c = true) (cwd w) ->
  resolve w ("/" +++ String.concat "/" (cwd w)) = get (root w) (cwd w).
Proof.
  intros Hroot Hcwd. unfold resolve. cbn [String.append String.eqb].
  cbn [Str.startswith Ascii.eqb Bool.eqb andb].
  cbn [Str.split_slash Ascii.eqb Bool.eqb andb steps step].
  destruct (root w) as [data | es] eqn:Er; [discriminate |].
  cbn [String.eqb orb].
  destruct (cwd w) as [|c cs] eqn:Ec.
  - reflexivity.
  - rewrite split_slash_concat.
    + pose proof (steps_get (c :: cs) (Dir es) [] Hcwd) as H.
      destruct (steps [Dir es] (c :: cs)) as [[|m st] |];
        [contradiction | now rewrite H | now rewrite H].
    + eapply Forall_impl; [| exact Hcwd]. apply valid_name_no_slash.
Qed.

(** The module-level code on one scan that returns: one line printed. *)
Lemma report_cwd (w : world) (prog : string) (found : list string) :
  fst (search_path_for_discs decode_7z
         ("/" +++ String.concat "/" (cwd w)) w) = Ok found ->
  main decode_7z [prog] w =
  print (summary_line (length found) "current directory") w.
Proof.
  intros H. unfold main, bind, os_getcwd. cbn [length Nat.eqb].
  destruct found as [|s found];
    repeat (rewrite search_eta, H; cbn [length Nat.eqb Nat.ltb Nat.leb]);
    reflexivity.
Qed.

Lemma report_path (w : world) (prog a : string) (rest found : list string) :
  fst (search_path_for_discs decode_7z a w) = Ok found ->
  main decode_7z (prog :: a :: rest) w =
  print (summary_line (length found) a) w.
Proof.
  intros H. unfold main, bind, argv_item, ret.
  cbn [length Nat.eqb nth_error].
  destruct found as [|s found];
    repeat (rewrite search_eta, H; cbn [length Nat.eqb Nat.ltb Nat.leb]);
    reflexivity.
Qed.

Lemma get_dir_root (t : node) (p : list string) (es : list (string * node)) :
  get t p = Some (Dir es) -> is_dir t = true.
Proof.
  destruct p as [|c p]; cbn [get].
  - intros H. injection H as ->. reflexivity.
  - destruct t; [discriminate | reflexivity].
Qed.

(** C9. Started without an argument in a working directory that exists,
    the script scans the path [os.getcwd()] returns, which leads to the
    working directory; the scan returns, and the script prints exactly
    one line and ends.  Started with an argument, it scans the argument
    and, when the scan returns its list, prints exactly one line and
    ends.  The line is [No supported disc files found in ...] for an
    empty list and [Found N supported disc files in ...] for [N]
    results, ending in [current directory] or in the argument as it was
    given. *)
Theorem main_prints_summary :
  (forall (w : world) (prog : string) (es : list (string * node)),
      Forall (fun c => valid_name c = true) (cwd w) ->
      get (root w) (cwd w) = Some (Dir es) ->
      exists d found,
        fst (os_getcwd w) = Ok d /\
        resolve w d = Some (Dir es) /\
        search_path_for_discs decode_7z d w = (Ok found, w) /\
        main decode_7z [prog] w =
        (Ok tt,
         World (root w) (cwd w)
               (stdout w ++
                [summary_line (length found) "current directory"]))) /\
  (forall (w : world) (prog a : string) (rest found : list string),
      fst (search_path_for_discs decode_7z a w) = Ok found ->
      main decode_7z (prog :: a :: rest) w =
      (Ok tt,
       World (root w) (cwd w)
             (stdout w ++ [summary_line (length found) a]))).
Proof.
  split.
  - intros w prog es Hcwd Hget.
    pose proof (resolve_getcwd w (get_dir_root _ _ _ Hget) Hcwd) as Hr.
    rewrite Hget in Hr.
    exists ("/" +++ String.concat "/" (cwd w)),
           (scan_walk (walk ("/" +++ String.concat "/" (cwd w)) (Dir es)) []).
    pose proof (search_dir w _ _ Hr eq_refl) as Hs.
    repeat split; try assumption.
    rewrite (report_cwd w prog _ (f_equal fst Hs)). reflexivity.
  - intros w prog a rest found H.
    now rewrite (report_path w prog a rest found H).
Qed.

(** X14. On an existing regular file whose name ends with one of the
    archive suffixes and whose bytes the archive library can read, the
    function returns the member names that end with a disc suffix, in
    the order of the archive listing, and leaves the world as it was:
    nothing is extracted. *)
Theorem search_readable_archive_lists_entries
    (w : world) (path bytes : string) (es : list entry) :
  resolve w path = Some (File bytes) ->
  has_suffix_in supported_archives (basename path) ->
  decode_7z bytes = Some es ->
  exists found,
    search_path_for_discs decode_7z path w = (Ok found, w) /\
    found = filter (fun name => Str.endswith_tuple name supported_discs)
                   (getnames es) /\
    forall s, In s found <->
              In s (getnames es) /\ has_suffix_in supported_discs s.
Proof.
  intros Hr Hsuf Hd.
  eexists. split; [| split; [reflexivity |]].
  - rewrite (search_file _ _ _ Hr), archive_suffix_of_name.
    apply endswith_tuple_spec in Hsuf. now rewrite Hsuf, Hd.
  - intros s. now rewrite filter_In, endswith_tuple_spec.
Qed.

(** C4. On a path that does not exist, and on an existing regular file
    whose name ends with none of the archive suffixes, the function
    returns the empty sequence and raises nothing. *)
Theorem search_empty_otherwise (w : world) (path : string) :
  resolve w path = None \/
  (exists bytes, resolve w path = Some (File bytes) /\
                 ~ has_suffix_in supported_archives (basename path)) ->
  search_path_for_discs decode_7z path w = (Ok [], w).
Proof.
  intros [Hr | (bytes & Hr & Hsuf)].
  - now apply search_missing.
  - rewrite (search_file _ _ _ Hr), archive_suffix_of_name.
    rewrite <- endswith_tuple_spec in Hsuf.
    now destruct (Str.endswith_tuple (basename path) supported_archives).
Qed.

(** C7. The function has no side effect: whatever the path and whatever
    it returns or raises, the filesystem, the working directory and the
    output are as before the call.  In the archive case only the member
    names are read: two archives with the same listing give the same
    result, whatever their members hold. *)
Theorem search_read_only :
  (forall (w : world) (path : string),
      snd (search_path_for_discs decode_7z path w) = w) /\
  (forall (w w' : world) (path bytes bytes' : string) (es es' : list entry),
      resolve w path = Some (File bytes) ->
      resolve w' path = Some (File bytes') ->
      decode_7z bytes = Some es ->
      decode_7z bytes' = Some es' ->
      getnames es = getnames es' ->
      fst (search_path_for_discs decode_7z path w) =
      fst (search_path_for_discs decode_7z path w')).
Proof.
  split; [apply search_frame |].
  intros w w' path bytes bytes' es es' Hr Hr' Hd Hd' Hn.
  rewrite (search_file _ _ _ Hr), (search_file _ _ _ Hr'), Hd, Hd', Hn.
  now destruct (Str.endswith_tuple path supported_archives).
Qed.

End SearchFacts.

(* ================================================================== *)
(** * Writing into the tree *)

Section WriteFacts.

Lemma prefixb_refl (p : list string) : prefixb p p = true.
Proof.
  induction p as [|c p IH]; [reflexivity |].
  cbn [prefixb]. now rewrite String.eqb_refl.
Qed.

















End WriteFacts.

(* ================================================================== *)
(** * extract_archive *)

Section ExtractFacts.

Variable decode_7z : string -> option (list entry).

Lemma compatible_sym q1 b1 q2 b2 :
  compatible q1 b1 q2 b2 -> compatible q2 b2 q1 b1.
Proof.
  intros (H1 & H2 & H3). repeat split; auto.
  intros E. symmetry. auto.
Qed.





















(** Whatever it does, [extractall] leaves the working directory and the
    output alone. *)
Lemma extractall_keeps_output (es : list entry) (w : world)
    (r : result unit) (w' : world) :
  extractall es w = (r, w') ->
  cwd w' = cwd w /\ stdout w' = stdout w.
Proof.
  unfold extractall.
  destruct (plan_members (root w) (cwd w) [] es) as [[dirs files] | x];
    [| intros H; injection H as _ <-; auto].
  destruct (make_dirs (sort_paths dirs) (root w)) as [[[] | x] t1].
  - destruct (write_files files t1) as [r2 t2].
    intros H. injection H as _ <-. auto.
  - intros H. injection H as _ <-. auto.
Qed.

(** The three ways through [extract_archive]. *)
Lemma extract_archive_done w archive bytes es w' :
  resolve w archive = Some (File bytes) -> decode_7z bytes = Some es ->
  extractall es w = (Ok tt, w') ->
  extract_archive decode_7z archive w = (Ok tt, w').
Proof.
  intros Hr Hd He.
  unfold extract_archive, extract_archive_body, try_except, bind, load,
    lift, store, SevenZipFile_of, SevenZipFile, extractall_of.
  cbn [fst snd]. rewrite Hr, Hd. cbn [fst snd]. now rewrite He.
Qed.

Lemma extract_archive_open_fails w archive :
  (forall es, fst (SevenZipFile decode_7z archive w) <> Ok es) ->
  extract_archive decode_7z archive w =
  print ("Error extracting " +++ archive) w.
Proof.
  intros Hopen.
  unfold extract_archive, extract_archive_body, try_except, bind, load,
    lift, store, SevenZipFile_of, str_add, ret.
  cbn [fst snd]. unfold SevenZipFile in *.
  destruct (resolve w archive) as [[bytes | sub] |]; try reflexivity.
  destruct (decode_7z bytes) as [es |]; [| reflexivity].
  now destruct (Hopen es).
Qed.

Lemma extract_archive_extract_fails w archive bytes es e w' :
  resolve w archive = Some (File bytes) -> decode_7z bytes = Some es ->
  extractall es w = (Raise e, w') ->
  extract_archive decode_7z archive w = (Raise TypeError, w').
Proof.
  intros Hr Hd He.
  unfold extract_archive, extract_archive_body, try_except, bind, load,
    lift, store, SevenZipFile_of, SevenZipFile, extractall_of,
    str_add, raise.
  cbn [fst snd]. rewrite Hr, Hd. cbn [fst snd]. now rewrite He.
Qed.


End ExtractFacts.

(* ================================================================== *)
(** * Listing order *)

Section OrderFacts.

Variable decode_7z : string -> option (list entry).

Lemma same_state_refl (n : node) : same_state n n.
Proof.
  induction n as [data | es IH] using node_ind; [constructor |].
  apply same_dir with (es1 := es); [| reflexivity].
  induction IH; constructor; auto.
Qed.

Lemma same_state_relist (n : node) : same_state n (relist n).
Proof.
  induction n as [data | es IH] using node_ind; [constructor |].
  cbn [relist]. eapply same_dir; [| apply Permutation_rev].
  induction IH as [|[name sub] es Hsub _ IHes]; constructor; auto.
Qed.

Lemma same_state_is_file n n' :
  same_state n n' -> is_file n = is_file n'.
Proof. now destruct 1. Qed.

Lemma lookup_In c n l : lookup c l = Some n -> In (c, n) l.
Proof.
  induction l as [|[k x] l IH]; cbn [lookup]; [discriminate |].
  destruct (String.eqb k c) eqn:E.
  - apply String.eqb_eq in E as ->. intros H. injection H as ->. now left.
  - intros H. right. auto.
Qed.

Lemma In_lookup c n l :
  NoDup (map fst l) -> In (c, n) l -> lookup c l = Some n.
Proof.
  induction l as [|[k x] l IH]; cbn [lookup map fst]; intros Hnd [];
    inversion Hnd as [|? ? Hk Hnd']; subst.
  - injection H as -> ->. now rewrite String.eqb_refl.
  - destruct (String.eqb k c) eqn:E; [| auto].
    apply String.eqb_eq in E as ->. destruct Hk.
    now apply (in_map fst) in H.
Qed.

Lemma lookup_perm c l l' :
  NoDup (map fst l) -> Permutation l l' -> lookup c l = lookup c l'.
Proof.
  intros Hnd Hp.
  assert (NoDup (map fst l')) as Hnd'
    by (eapply Permutation_NoDup; [apply Permutation_map |]; eassumption).
  destruct (lookup c l) as [n |] eqn:E.
  - symmetry. apply In_lookup; [assumption |].
    eapply Permutation_in; [eassumption |]. now apply lookup_In.
  - destruct (lookup c l') as [n |] eqn:E'; [| reflexivity].
    apply lookup_In in E'. apply Permutation_sym in Hp.
    apply (Permutation_in _ Hp), (In_lookup _ _ _ Hnd) in E'. congruence.
Qed.

Lemma entries_names es es1 :
  Forall2 entry_rel es es1 -> map fst es = map fst es1.
Proof.
  induction 1 as [|a b es es1 [Hn _] _ IH]; [reflexivity |].
  cbn [map]. congruence.
Qed.

Lemma lookup_entries c es es1 :
  Forall2 entry_rel es es1 ->
  match lookup c es, lookup c es1 with
  | Some n, Some n1 => same_state n n1
  | None, None => True
  | _, _ => False
  end.
Proof.
  induction 1 as [|[k x] [k1 x1] es es1 [Hn Hs] _ IH]; [exact I |].
  cbn [fst snd] in Hn, Hs. subst k1. cbn [lookup].
  now destruct (String.eqb k c).
Qed.

Lemma lookup_same c es es' :
  NoDup (map fst es) -> same_state (Dir es) (Dir es') ->
  match lookup c es, lookup c es' with
  | Some n, Some n' => same_state n n'
  | None, None => True
  | _, _ => False
  end.
Proof.
  intros Hnd H. inversion H as [| ? es1 ? Hf Hp]; subst.
  rewrite <- (lookup_perm c es1 es'); [now apply lookup_entries | | exact Hp].
  now rewrite <- (entries_names _ _ Hf).
Qed.

Lemma wf_lookup c es n :
  wf_node (Dir es) -> lookup c es = Some n -> wf_node n.
Proof.
  intros Hwf Hl. inversion Hwf as [| ? _ _ Hsub]; subst.
  rewrite Forall_forall in Hsub. apply lookup_In in Hl.
  exact (Hsub _ Hl).
Qed.

(** Path resolution does not depend on the listing order. *)
Lemma step_same st st' c :
  Forall2 same_state st st' -> Forall wf_node st ->
  match step st c, step st' c with
  | Some s1, Some s1' => Forall2 same_state s1 s1' /\ Forall wf_node s1
  | None, None => True
  | _, _ => False
  end.
Proof.
  intros Hst Hwf. destruct Hst as [|n n' up up' Hn Hup]; [exact I |].
  inversion Hwf as [|? ? Hwn Hwup]; subst.
  destruct Hn as [data | es es1 es' Hf Hp]; cbn [step]; [exact I |].
  pose proof (same_dir _ _ _ Hf Hp) as Hd.
  destruct (String.eqb c "" || String.eqb c ".").
  { split; constructor; assumption. }
  destruct (String.eqb c "..").
  { destruct Hup; split; try constructor; try assumption;
      now inversion Hwup. }
  inversion Hwn as [| ? Hnd _ _]; subst.
  pose proof (lookup_same c es es' Hnd Hd) as Hl.
  destruct (lookup c es) as [child |] eqn:E, (lookup c es') as [child' |];
    try contradiction; [| exact I].
  split; constructor; try assumption;
    try (constructor; assumption).
  eapply wf_lookup; eassumption.
Qed.

Lemma steps_same cs : forall st st',
  Forall2 same_state st st' -> Forall wf_node st ->
  match steps st cs, steps st' cs with
  | Some s1, Some s1' => Forall2 same_state s1 s1' /\ Forall wf_node s1
  | None, None => True
  | _, _ => False
  end.
Proof.
  induction cs as [|c cs IH]; intros st st' Hst Hwf; cbn [steps];
    [auto |].
  pose proof (step_same st st' c Hst Hwf) as H.
  destruct (step st c) as [s1 |], (step st' c) as [s1' |];
    try contradiction; [| exact I].
  destruct H. now apply IH.
Qed.

Lemma resolve_same w w' path :
  same_world w w' -> wf_node (root w) ->
  match resolve w path, resolve w' path with
  | Some n, Some n' => same_state n n'
  | None, None => True
  | _, _ => False
  end.
Proof.
  intros (Hroot & Hcwd & _) Hwf. unfold resolve. rewrite <- Hcwd.
  destruct (String.eqb path ""); [exact I |].
  assert (Forall2 same_state [root w] [root w']) as H0
    by (constructor; [assumption | constructor]).
  assert (Forall wf_node [root w]) as W0
    by (constructor; [assumption | constructor]).
  assert (match (if Str.startswith path "/" then Some [root w]
                 else steps [root w] (cwd w)),
                (if Str.startswith path "/" then Some [root w']
                 else steps [root w'] (cwd w)) with
          | Some s1, Some s1' =>
              Forall2 same_state s1 s1' /\ Forall wf_node s1
          | None, None => True
          | _, _ => False
          end) as Hstart.
  { destruct (Str.startswith path "/"); [auto |]. now apply steps_same. }
  destruct (if Str.startswith path "/" then Some [root w]
            else steps [root w] (cwd w)) as [st |],
           (if Str.startswith path "/" then Some [root w']
            else steps [root w'] (cwd w)) as [st' |];
    try contradiction; [| exact I].
  destruct Hstart as [Hst Hwst].
  pose proof (steps_same (Str.split_slash path) st st' Hst Hwst) as H.
  destruct (steps st (Str.split_slash path)) as [s1 |],
           (steps st' (Str.split_slash path)) as [s1' |];
    try contradiction; [| exact I].
  destruct H as [H _]. destruct H; [exact I | assumption].
Qed.

(** The scan of a directory, entry by entry. *)
Lemma matching_filenames top es :
  matching top (filenames es) = flat_map (discs_here top) es.
Proof.
  unfold matching, filenames, discs_here.
  induction es as [|[name [data | sub]] es IH]; cbn [filter map flat_map
    fst snd is_file andb]; [reflexivity | | assumption].
  destruct (Str.endswith_tuple name supported_discs); cbn [map app];
    now rewrite IH.
Qed.

Lemma scan_dir top es :
  scan_walk (walk top (Dir es)) [] =
  flat_map (discs_here top) es ++
  flat_map (fun e => scan_walk (walk (PosixPath.join top (fst e)) (snd e)) [])
           es.
Proof.
  rewrite scan_walk_eq, walk_dir. cbn [flat_map app fst snd].
  rewrite matching_filenames. f_equal.
  induction es as [|e es IH]; [reflexivity |].
  cbn [flat_map]. rewrite flat_map_app, IH. f_equal.
  now rewrite scan_walk_eq.
Qed.

(** The scan of a subtree finds the same strings in any listing
    order. *)
Lemma scan_same (n : node) : forall n' top,
  same_state n n' ->
  Permutation (scan_walk (walk top n) []) (scan_walk (walk top n') []).
Proof.
  induction n as [data | es IH] using node_ind; intros n' top H;
    inversion H as [| ? es1 es' Hf Hp]; subst; [reflexivity |].
  rewrite !scan_dir.
  transitivity
    (flat_map (discs_here top) es1 ++
     flat_map
       (fun e => scan_walk (walk (PosixPath.join top (fst e)) (snd e)) [])
       es1).
  - apply Permutation_app.
    + clear IH H Hp. induction Hf as [|a b es es1 [Hn Hs] _ IHf];
        [reflexivity |].
      cbn [flat_map]. rewrite IHf. unfold discs_here.
      now rewrite Hn, (same_state_is_file _ _ Hs).
    + clear H Hp. revert IH.
      induction Hf as [|a b es es1 [Hn Hs] _ IHf]; intros IH;
        [reflexivity |].
      inversion IH as [|? ? Ha IH']; subst. cbn [flat_map].
      apply Permutation_app; [| now apply IHf].
      rewrite Hn. now apply Ha.
  - apply Permutation_app; now apply Permutation_flat_map.
Qed.

(** C8. Two calls in a row on the same path, the filesystem unchanged
    in between but possibly listed in another order the second time,
    have the same outcome: either they return the same strings, each as
    often, in some order, or they raise the same exception. *)
Theorem search_deterministic (w : world) (path : string) :
  wf_node (root w) ->
  forall w2,
    same_world (snd (search_path_for_discs decode_7z path w)) w2 ->
    same_results (fst (search_path_for_discs decode_7z path w))
                 (fst (search_path_for_discs decode_7z path w2)).
Proof.
  intros Hwf w2. rewrite search_frame. intros Hsame.
  pose proof (resolve_same w w2 path Hsame Hwf) as Hr.
  destruct (resolve w path) as [n |] eqn:E,
           (resolve w2 path) as [n2 |] eqn:E2; try contradiction.
  - destruct Hr as [data | es es1 es' Hf Hp].
    + rewrite (search_file _ _ _ _ E), (search_file _ _ _ _ E2).
      destruct (Str.endswith_tuple path supported_archives);
        [| apply Permutation_refl].
      destruct (decode_7z data); [apply Permutation_refl | reflexivity].
    + rewrite (search_dir _ _ _ _ E eq_refl),
        (search_dir _ _ _ _ E2 eq_refl).
      apply scan_same. econstructor; eassumption.
  - rewrite (search_missing _ _ _ E), (search_missing _ _ _ E2).
    apply Permutation_refl.
Qed.

End OrderFacts.

(* ================================================================== *)
(** * The defect in the handler of extract_archive *)

(** C3. A failure while the archive is opened is reported as the claim
    says (lemma [extract_archive_open_fails]), but a failure during the
    extraction is not: by then the name [archive] is bound to the opened
    archive, the concatenation in the handler raises [TypeError], no
    message is printed and the exception leaves the function.  Here the
    archive [good.zip] holds a directory [cd1] and the working directory
    a regular file of that name. *)
Theorem extract_failure_escapes :
  extract_archive Demo.toy_7z "good.zip" Demo.blocked =
  (Raise TypeError, Demo.blocked).
Proof.
  apply (extract_archive_extract_fails Demo.toy_7z Demo.blocked "good.zip"
           "7z:album"
           [Entry "cd1" None; Entry "cd1/track.bin" (Some "T");
            Entry "cd1/track.cue" (Some "C")]
           FileExistsError).
  - reflexivity.
  - reflexivity.
  - reflexivity.
Qed.

(** The failure at opening, for comparison: reported and swallowed. *)
Example extract_corrupt_reported :
  extract_archive Demo.toy_7z "corrupt.7z" Demo.disk =
  (Ok tt,
   World (root Demo.disk) (cwd Demo.disk) ["Error extracting corrupt.7z"]).
Proof. reflexivity. Qed.

(* ================================================================== *)
(** * The archives the scan cannot open *)

(** C2. The scan opens every file with an archive suffix with
    [py7zr.SevenZipFile], which reads the 7z format only.  On an
    existing regular file whose name ends with [.zip], [.gz], [.rar] or
    [.7z] and that is a ZIP, gzip or RAR archive, the call does not
    return entry names: it raises [Bad7zFile], and the filesystem is as
    before. *)
Theorem search_foreign_archive_raises
    (decode : string -> option (list entry))
    (w : world) (path bytes : string) :
  reads_no_foreign_archive decode ->
  resolve w path = Some (File bytes) ->
  has_suffix_in supported_archives (basename path) ->
  foreign_archive bytes = true ->
  search_path_for_discs decode path w = (Raise Bad7zFile, w).
Proof.
  intros Hlib Hr Hsuf Hforeign.
  rewrite (search_file decode _ _ _ Hr), archive_suffix_of_name.
  apply endswith_tuple_spec in Hsuf. rewrite Hsuf.
  now rewrite (Hlib bytes Hforeign).
Qed.

(* ================================================================== *)
(** * Where the scan and the extraction stop *)

(** C9 does not hold for every scan: started on [corrupt.7z] the script
    ends with the exception of the scan and has printed nothing. *)
Lemma main_unreadable_archive_prints_nothing :
  main Demo.toy_7z ["Optimize-Disc.py"; "corrupt.7z"] Demo.disk =
  (Raise Bad7zFile, Demo.disk) /\
  stdout (snd (main Demo.toy_7z ["Optimize-Disc.py"; "corrupt.7z"] Demo.disk))
  = [].
Proof. split; reflexivity. Qed.


(* ================================================================== *)
(** * The theorems at work on the small disk *)

Ltac names_differ := cbn [In map fst]; intuition discriminate.

Ltac wf_tree :=
  repeat first
    [ apply wf_file
    | apply wf_dir
    | apply NoDup_nil
    | apply NoDup_cons; [names_differ |]
    | apply Forall_nil
    | apply Forall_cons
    | reflexivity ].

Lemma search_directory_exact_witness :
  resolve Demo.disk "roms" = Some Demo.roms /\
  is_dir Demo.roms = true /\
  exists found,
    search_path_for_discs Demo.toy_7z "roms" Demo.disk =
    (Ok found, Demo.disk) /\
    forall s,
      In s found <->
      exists p es file data,
        reaches Demo.roms p (Dir es) /\ In (file, File data) es /\
        has_suffix_in supported_discs file /\
        s = PosixPath.join (joins "roms" p) file.
Proof.
  split; [reflexivity | split; [reflexivity |]].
  apply (search_directory_exact Demo.toy_7z Demo.disk "roms" Demo.roms);
    reflexivity.
Defined.

Lemma search_foreign_archive_raises_witness :
  resolve Demo3.disk "a.zip" = Some (File Demo3.zip_bytes) /\
  foreign_archive Demo3.zip_bytes = true /\
  search_path_for_discs Demo3.toy_7z "a.zip" Demo3.disk =
  (Raise Bad7zFile, Demo3.disk).
Proof.
  split; [reflexivity | split; [reflexivity |]].
  apply (search_foreign_archive_raises Demo3.toy_7z Demo3.disk "a.zip"
           Demo3.zip_bytes).
  - intros [|a rest] H; [discriminate |]. unfold Demo3.toy_7z.
    destruct (Ascii.eqb "7" a) eqn:E.
    + apply Ascii.eqb_eq in E. subst a. discriminate H.
    + cbn [Str.startswith sevenzip_magic]. now rewrite E.
  - reflexivity.
  - apply endswith_tuple_spec. reflexivity.
  - reflexivity.
Defined.

Lemma search_readable_archive_lists_entries_witness :
  resolve Demo3.disk "a.7z" = Some (File Demo3.sevenzip_bytes) /\
  exists found,
    search_path_for_discs Demo3.toy_7z "a.7z" Demo3.disk =
    (Ok found, Demo3.disk) /\
    found = ["game.iso"; "track.bin"].
Proof.
  split; [reflexivity |].
  destruct (search_readable_archive_lists_entries Demo3.toy_7z Demo3.disk
              "a.7z" Demo3.sevenzip_bytes
              [Entry "game.iso" (Some "G"); Entry "readme.txt" (Some "R");
               Entry "track.bin" (Some "T")])
    as (found & Hrun & Hfound & _).
  - reflexivity.
  - apply endswith_tuple_spec. reflexivity.
  - reflexivity.
  - exists found. split; [exact Hrun | exact Hfound].
Defined.

Lemma search_empty_otherwise_witness :
  resolve Demo.disk "notes.txt" = Some (File "n") /\
  search_path_for_discs Demo.toy_7z "notes.txt" Demo.disk =
  (Ok [], Demo.disk).
Proof.
  split; [reflexivity |].
  apply (search_empty_otherwise Demo.toy_7z Demo.disk "notes.txt").
  right. exists "n". split; [reflexivity |].
  intros H. apply endswith_tuple_spec in H. discriminate H.
Defined.

Lemma search_results_have_disc_suffix_witness :
  fst (search_path_for_discs Demo.toy_7z "roms" Demo.disk) =
  Ok ["roms/doom.iso"; "roms/psx/ff7.bin"; "roms/psx/ff7.cue"] /\
  Forall (has_suffix_in supported_discs)
         ["roms/doom.iso"; "roms/psx/ff7.bin"; "roms/psx/ff7.cue"].
Proof.
  split; [reflexivity |].
  apply (proj1 (search_results_have_disc_suffix Demo.toy_7z) Demo.disk "roms").
  reflexivity.
Defined.

Lemma search_read_only_witness :
  fst (search_path_for_discs Demo.toy_7z "a.zip" Demo.disk) =
  fst (search_path_for_discs Demo.toy_7z "a.zip" Demo.disk_blank).
Proof.
  apply (proj2 (search_read_only Demo.toy_7z) Demo.disk Demo.disk_blank
           "a.zip" "7z:discs" "7z:blank"
           [Entry "game.iso" (Some "G"); Entry "readme.txt" (Some "R");
            Entry "track.bin" (Some "T")]
           [Entry "game.iso" (Some ""); Entry "readme.txt" (Some "");
            Entry "track.bin" (Some "")]);
    reflexivity.
Defined.

Lemma search_deterministic_witness :
  fst (search_path_for_discs Demo.toy_7z "." Demo.disk) =
  Ok ["./roms/doom.iso"; "./roms/psx/ff7.bin"; "./roms/psx/ff7.cue"] /\
  fst (search_path_for_discs Demo.toy_7z "." Demo.disk_relisted) =
  Ok ["./roms/doom.iso"; "./roms/psx/ff7.cue"; "./roms/psx/ff7.bin"] /\
  same_results (fst (search_path_for_discs Demo.toy_7z "." Demo.disk))
               (fst (search_path_for_discs Demo.toy_7z "." Demo.disk_relisted)).
Proof.
  split; [reflexivity | split; [reflexivity |]].
  apply (search_deterministic Demo.toy_7z Demo.disk ".").
  - unfold Demo.disk, Demo.home, Demo.roms, Demo.psx. cbn [root]. wf_tree.
  - rewrite search_frame. split; [| split; reflexivity].
    apply same_state_relist.
Defined.

Lemma main_prints_summary_witness :
  main Demo.toy_7z ["Optimize-Disc.py"] Demo.disk =
  (Ok tt,
   World (root Demo.disk) (cwd Demo.disk)
         ["Found 3 supported disc files in current directory"]) /\
  main Demo.toy_7z ["Optimize-Disc.py"; "notes.txt"] Demo.disk =
  (Ok tt,
   World (root Demo.disk) (cwd Demo.disk)
         ["No supported disc files found in notes.txt"]).
Proof.
  split.
  - destruct (proj1 (main_prints_summary Demo.toy_7z) Demo.disk
                "Optimize-Disc.py"
                [("a.zip", File "7z:discs"); ("good.zip", File "7z:album");
                 ("corrupt.7z", File "not an archive");
                 ("notes.txt", File "n"); ("roms", Demo.roms)])
      as (d & found & Hd & _ & Hs & Hm).
    + repeat constructor.
    + reflexivity.
    + rewrite Hm. cbn in Hd. injection Hd as <-.
      cbv in Hs. injection Hs as <-. reflexivity.
  - apply (proj2 (main_prints_summary Demo.toy_7z) Demo.disk
             "Optimize-Disc.py" "notes.txt" [] []).
    reflexivity.
Defined.



(* ================================================================== *)
(** * More on failures and on what is left untouched *)

Section OutcomeFacts.

Variable decode_7z : string -> option (list entry).

(** X1. When the archive cannot be opened, because the path does not
    exist, is a directory, or holds bytes the library cannot read,
    [extract_archive] returns normally, prints the one line
    [Error extracting <path>] and leaves the filesystem as it was. *)
Theorem extract_open_failure_reported (w : world) (archive : string) :
  resolve w archive = None \/
  (exists sub, resolve w archive = Some (Dir sub)) \/
  (exists bytes, resolve w archive = Some (File bytes) /\
                 decode_7z bytes = None) ->
  extract_archive decode_7z archive w =
  (Ok tt,
   World (root w) (cwd w) (stdout w ++ ["Error extracting " +++ archive])).
Proof.
  intros H.
  rewrite extract_archive_open_fails; [reflexivity |].
  intros es. unfold SevenZipFile.
  destruct H as [-> | [[sub ->] | (bytes & -> & ->)]]; discriminate.
Qed.

(** X2. When the archive opens and the extraction raises, whatever the
    exception, what leaves [extract_archive] is a [TypeError]; nothing is
    printed, and the members written before the failure stay on disk. *)
Theorem extract_failure_raises_type_error
    (w : world) (archive bytes : string) (es : list entry)
    (e : exn) (w' : world) :
  resolve w archive = Some (File bytes) ->
  decode_7z bytes = Some es ->
  extractall es w = (Raise e, w') ->
  extract_archive decode_7z archive w = (Raise TypeError, w') /\
  cwd w' = cwd w /\ stdout w' = stdout w.
Proof.
  intros Hr Hd He. split.
  - exact (extract_archive_extract_fails decode_7z _ _ _ _ _ _ Hr Hd He).
  - exact (extractall_keeps_output _ _ _ _ He).
Qed.

(** X3. [extract_archive] raises exactly when the archive opened and the
    extraction raised, and then it raises [TypeError]: no other exception
    ever leaves it. *)
Theorem extract_archive_raises_iff (w : world) (archive : string) (e : exn) :
  fst (extract_archive decode_7z archive w) = Raise e <->
  e = TypeError /\
  exists bytes es e',
    resolve w archive = Some (File bytes) /\
    decode_7z bytes = Some es /\
    fst (extractall es w) = Raise e'.
Proof.
  split.
  - intros H.
    destruct (resolve w archive) as [[bytes | sub] |] eqn:Hr.
    + destruct (decode_7z bytes) as [es |] eqn:Hd.
      * destruct (extractall es w) as [[[] | e'] w'] eqn:He.
        -- rewrite (extract_archive_done decode_7z _ _ _ _ _ Hr Hd He) in H.
           discriminate.
        -- rewrite (extract_archive_extract_fails decode_7z _ _ _ _ _ _
                      Hr Hd He) in H.
           injection H as <-. split; [reflexivity |].
           exists bytes, es, e'. now rewrite He.
      * rewrite extract_archive_open_fails in H; [discriminate |].
        intros es. unfold SevenZipFile. rewrite Hr, Hd. discriminate.
    + rewrite extract_archive_open_fails in H; [discriminate |].
      intros es. unfold SevenZipFile. rewrite Hr. discriminate.
    + rewrite extract_archive_open_fails in H; [discriminate |].
      intros es. unfold SevenZipFile. rewrite Hr. discriminate.
  - intros (-> & bytes & es & e' & Hr & Hd & He).
    destruct (extractall es w) as [r w'] eqn:Hx. cbn [fst] in He.
    subst r.
    now rewrite (extract_archive_extract_fails decode_7z _ _ _ _ _ _
                   Hr Hd Hx).
Qed.

(** X4. [search_path_for_discs] raises exactly on a regular file whose
    name ends with an archive suffix and that the library cannot read,
    and what it raises is the exception of the library. *)
Theorem search_raises_iff (w : world) (path : string) (e : exn) :
  fst (search_path_for_discs decode_7z path w) = Raise e <->
  e = Bad7zFile /\
  exists bytes,
    resolve w path = Some (File bytes) /\
    has_suffix_in supported_archives (basename path) /\
    decode_7z bytes = None.
Proof.
  split.
  - intros H. destruct (resolve w path) as [[bytes | sub] |] eqn:Hr.
    + rewrite (search_file decode_7z _ _ _ Hr) in H.
      destruct (Str.endswith_tuple path supported_archives) eqn:Hs;
        [| discriminate].
      destruct (decode_7z bytes) eqn:Hd; [discriminate |].
      injection H as <-. split; [reflexivity |]. exists bytes.
      repeat split; try assumption.
      apply endswith_tuple_spec. now rewrite <- archive_suffix_of_name.
    + rewrite (search_dir decode_7z _ _ _ Hr eq_refl) in H. discriminate.
    + rewrite (search_missing decode_7z _ _ Hr) in H. discriminate.
  - intros (-> & bytes & Hr & Hs & Hd).
    apply endswith_tuple_spec in Hs. rewrite <- archive_suffix_of_name in Hs.
    now rewrite (search_file decode_7z _ _ _ Hr), Hs, Hd.
Qed.

(** X7. The scan of an existing directory is empty exactly when no
    regular file of its subtree has a name with a disc suffix. *)
Theorem search_directory_empty_iff (w : world) (D : string) (n : node) :
  resolve w D = Some n -> is_dir n = true ->
  (fst (search_path_for_discs decode_7z D w) = Ok [] <->
   forall p es file data,
     reaches n p (Dir es) -> In (file, File data) es ->
     ~ has_suffix_in supported_discs file).
Proof.
  intros Hr Hd. rewrite (search_dir decode_7z _ _ _ Hr Hd). cbn [fst].
  split.
  - intros H p es file data Hreach Hin Hsuf.
    assert (In (PosixPath.join (joins D p) file)
               (scan_walk (walk D n) [])) as Hs
      by (apply scan_tree_In; exists p, es, file, data; auto).
    remember (scan_walk (walk D n) []) as found.
    injection H as ->. destruct Hs.
  - intros H. f_equal.
    destruct (scan_walk (walk D n) []) as [|s found] eqn:E;
      [reflexivity |].
    assert (In s (scan_walk (walk D n) [])) as Hs
      by (rewrite E; now left).
    apply scan_tree_In in Hs as (p & es & file & data & Hreach & Hin & Hsuf & _).
    destruct (H p es file data Hreach Hin Hsuf).
Qed.

(** The module-level code in closed form. *)
Lemma main_no_argument (argv : list string) (w : world) :
  length argv = 1 ->
  main decode_7z argv w =
  match fst (search_path_for_discs decode_7z
               ("/" +++ String.concat "/" (cwd w)) w) with
  | Ok found => print (summary_line (length found) "current directory") w
  | Raise e => (Raise e, w)
  end.
Proof.
  intros Hlen. unfold main. rewrite Hlen. cbn [Nat.eqb].
  unfold bind, os_getcwd.
  destruct (fst (search_path_for_discs decode_7z _ w)) as [found | e] eqn:H.
  - destruct found as [|s found];
      repeat (rewrite (search_eta decode_7z), H;
              cbn [length Nat.eqb Nat.ltb Nat.leb]);
      reflexivity.
  - now rewrite (search_eta decode_7z), H.
Qed.

Lemma main_argument (argv : list string) (a : string) (w : world) :
  length argv <> 1 -> nth_error argv 1 = Some a ->
  main decode_7z argv w =
  match fst (search_path_for_discs decode_7z a w) with
  | Ok found => print (summary_line (length found) a) w
  | Raise e => (Raise e, w)
  end.
Proof.
  intros Hlen Ha. unfold main.
  apply Nat.eqb_neq in Hlen. rewrite Hlen.
  unfold argv_item. rewrite Ha. unfold bind, ret.
  destruct (fst (search_path_for_discs decode_7z a w)) as [found | e] eqn:H.
  - destruct found as [|s found];
      repeat (rewrite (search_eta decode_7z), H;
              cbn [length Nat.eqb Nat.ltb Nat.leb]);
      reflexivity.
  - now rewrite (search_eta decode_7z), H.
Qed.

Lemma main_missing_argument (argv : list string) (w : world) :
  length argv <> 1 -> nth_error argv 1 = None ->
  main decode_7z argv w = (Raise IndexError, w).
Proof.
  intros Hlen Ha. unfold main.
  apply Nat.eqb_neq in Hlen. rewrite Hlen.
  unfold argv_item. now rewrite Ha.
Qed.

(** X8. Started with a path argument whose scan raises, the script
    ends with that exception: it is not caught, nothing is printed and
    nothing else has changed. *)
Theorem main_propagates_scan_failure
    (w : world) (prog a : string) (rest : list string) (e : exn) :
  fst (search_path_for_discs decode_7z a w) = Raise e ->
  main decode_7z (prog :: a :: rest) w = (Raise e, w).
Proof.
  intros H. rewrite (main_argument _ a); [now rewrite H | | reflexivity].
  cbn [length]. discriminate.
Qed.

(** X9. Whatever the arguments and whatever the outcome, the script
    leaves the filesystem and the working directory as they were, and
    prints nothing or exactly one summary line. *)
Theorem main_touches_only_output (argv : list string) (w : world) :
  root (snd (main decode_7z argv w)) = root w /\
  cwd (snd (main decode_7z argv w)) = cwd w /\
  (stdout (snd (main decode_7z argv w)) = stdout w \/
   exists count where_,
     stdout (snd (main decode_7z argv w)) =
     stdout w ++ [summary_line count where_]).
Proof.
  destruct (Nat.eq_dec (length argv) 1) as [Hlen | Hlen].
  - rewrite (main_no_argument argv w Hlen).
    destruct (fst (search_path_for_discs decode_7z _ w)) as [found | e].
    + cbn. repeat split. right. eauto.
    + cbn. auto.
  - destruct (nth_error argv 1) as [a |] eqn:Ha.
    + rewrite (main_argument argv a w Hlen Ha).
      destruct (fst (search_path_for_discs decode_7z a w)) as [found | e].
      * cbn. repeat split. right. eauto.
      * cbn. auto.
    + rewrite (main_missing_argument argv w Hlen Ha). cbn. auto.
Qed.

End OutcomeFacts.

(* ================================================================== *)
(** * The scan in closed form: which strings, in which order *)

Section ShapeFacts.

Variable decode_7z : string -> option (list entry).

Lemma append_inv_head (a x y : string) : a +++ x = a +++ y -> x = y.
Proof.
  induction a as [|c a IH]; cbn [String.append]; [auto |].
  intros H. injection H as H. auto.
Qed.

Lemma append_nonempty (a b : string) : a <> "" -> a +++ b <> "".
Proof. destruct a; [congruence | discriminate]. Qed.

Lemma no_slash_endswith (c : string) :
  Str.mem "/" c = false -> c <> "" -> Str.endswith c "/" = false.
Proof.
  induction c as [|a c IH]; [congruence |].
  cbn [Str.mem Str.endswith]. rewrite orb_false_iff.
  intros [Ha Hc] _. apply orb_false_iff. split.
  - apply String.eqb_neq. intros H. injection H as -> ->.
    now rewrite Ascii.eqb_refl in Ha.
  - destruct c as [|b c]; [reflexivity |]. apply IH; [assumption |].
    discriminate.
Qed.

(** A path that ends in a file name does not end with a slash. *)
Lemma endswith_after_name (X c : string) :
  valid_name c = true -> Str.endswith (X +++ c) "/" = false.
Proof.
  intros Hc. pose proof (valid_name_no_slash _ Hc) as Hs.
  assert (c <> "") as Hne.
  { intros ->. discriminate. }
  induction X as [|a X IH]; cbn [String.append].
  - now apply no_slash_endswith.
  - cbn [Str.endswith]. rewrite IH, orb_false_r.
    apply String.eqb_neq. intros H. injection H as _ H.
    destruct X; [cbn in H; contradiction | discriminate].
Qed.


Lemma split_slash_append (a b : string) :
  Str.split_slash (a +++ String "/" b) =
  Str.split_slash a ++ Str.split_slash b.
Proof.
  induction a as [|c a IH]; cbn [String.append Str.split_slash].
  - reflexivity.
  - rewrite IH. destruct (Ascii.eqb c "/"); [reflexivity |].
    destruct (Str.split_slash a) as [|h t] eqn:E; [| reflexivity].
    now apply split_slash_nonempty in E.
Qed.

Lemma join_valid (top c : string) :
  top <> "" -> valid_name c = true ->
  PosixPath.join top c = render top [c].
Proof.
  intros Ht Hc. unfold PosixPath.join, render.
  rewrite (valid_name_relative _ Hc).
  apply String.eqb_neq in Ht. rewrite Ht. cbn [orb String.concat].
  now destruct (Str.endswith top "/").
Qed.

Lemma render_nonempty (top : string) (l : list string) :
  top <> "" -> render top l <> "".
Proof. intros Ht. now apply append_nonempty. Qed.

Lemma render_join (top name : string) (l : list string) :
  top <> "" -> valid_name name = true -> l <> [] ->
  render (PosixPath.join top name) l = render top (name :: l).
Proof.
  intros Ht Hn Hl. rewrite (join_valid _ _ Ht Hn).
  destruct l as [|y l]; [contradiction |].
  assert (render top [name] =
          (top +++ (if Str.endswith top "/" then "" else "/")) +++ name)
    as E by (unfold render; cbn [String.concat]; now rewrite append_assoc).
  unfold render at 1. rewrite E, endswith_after_name by assumption.
  unfold render.
  change (String.concat "/" (name :: y :: l))
    with (name +++ "/" +++ String.concat "/" (y :: l)).
  now rewrite !append_assoc.
Qed.

Lemma disc_paths_dir (es : list (string * node)) :
  disc_paths (Dir es) =
  flat_map
    (fun e =>
       if is_file (snd e) && Str.endswith_tuple (fst e) supported_discs
       then [[fst e]]
       else [])
    es ++
  flat_map (fun e => map (cons (fst e)) (disc_paths (snd e))) es.
Proof.
  cbn [disc_paths]. f_equal.
  induction es as [|[name sub] es IH]; [reflexivity |].
  cbn [flat_map fst snd]. now rewrite IH.
Qed.

Lemma disc_paths_nonempty (n : node) (l : list string) :
  In l (disc_paths n) -> l <> [].
Proof.
  destruct n as [data | es]; [intros [] |].
  rewrite disc_paths_dir, in_app_iff, !in_flat_map.
  intros [(e & _ & H) | (e & _ & H)].
  - destruct (_ && _); [| destruct H].
    destruct H as [<- | []]. discriminate.
  - apply in_map_iff in H as (l' & <- & _). discriminate.
Qed.

(** The scan of a tree under the name [top]: the relative paths of its
    disc files, each written after [top]. *)
Lemma scan_render (n : node) : forall top,
  wf_node n -> top <> "" ->
  scan_walk (walk top n) [] = map (render top) (disc_paths n).
Proof.
  induction n as [data | es IH] using node_ind; intros top Hwf Ht;
    [reflexivity |].
  inversion Hwf as [| ? _ Hnames Hsub]; subst.
  rewrite scan_dir, disc_paths_dir, map_app. f_equal.
  - clear IH Hsub Hwf. induction Hnames as [|[name sub] es Hn _ IHes];
      [reflexivity |].
    cbn [flat_map fst snd] in *. rewrite map_app, <- IHes. f_equal.
    unfold discs_here. cbn [fst snd].
    destruct (is_file sub && Str.endswith_tuple name supported_discs);
      [| reflexivity].
    cbn [map]. now rewrite join_valid.
  - clear Hwf. induction es as [|[name sub] es IHes]; [reflexivity |].
    inversion IH as [|? ? Hhere IH']; subst.
    inversion Hnames as [|? ? Hn Hnames']; subst.
    inversion Hsub as [|? ? Hs Hsub']; subst.
    cbn [flat_map fst snd] in *. rewrite map_app, <- (IHes IH' Hnames' Hsub').
    f_equal. rewrite Hhere, map_map.
    + apply map_ext_in. intros l Hl. apply render_join; try assumption.
      eapply disc_paths_nonempty; eassumption.
    + assumption.
    + rewrite (join_valid _ _ Ht Hn). now apply render_nonempty.
Qed.

(** X5. On an existing directory [D] the result is, in the order of the
    walk, the relative path of every disc file of the subtree written
    after [D]: [D], a slash unless [D] ends with one, and the names from
    [D] down to the file separated by slashes. *)
Theorem search_lists_rendered_paths (w : world) (D : string) (n : node) :
  resolve w D = Some n -> is_dir n = true -> wf_node n ->
  search_path_for_discs decode_7z D w =
  (Ok (map (render D) (disc_paths n)), w).
Proof.
  intros Hr Hd Hwf. rewrite (search_dir decode_7z _ _ _ Hr Hd).
  rewrite scan_render; [reflexivity | assumption |].
  eapply resolve_nonempty; eassumption.
Qed.

Lemma disc_paths_names (n : node) : forall l,
  wf_node n -> In l (disc_paths n) ->
  Forall (fun c => Str.mem "/" c = false) l.
Proof.
  induction n as [data | es IH] using node_ind; intros l Hwf; [intros [] |].
  inversion Hwf as [| ? _ Hnames Hsub]; subst.
  rewrite Forall_forall in IH, Hnames, Hsub.
  rewrite disc_paths_dir, in_app_iff, !in_flat_map.
  intros [(e & He & H) | (e & He & H)].
  - destruct (_ && _); [| destruct H]. destruct H as [<- | []].
    constructor; [| constructor].
    apply valid_name_no_slash. now apply Hnames.
  - apply in_map_iff in H as (l' & <- & Hl').
    constructor; [apply valid_name_no_slash; now apply Hnames |].
    apply (IH e He); [now apply Hsub | assumption].
Qed.

Lemma here_NoDup (keep : string * node -> bool) (es : list (string * node)) :
  NoDup (map fst es) ->
  NoDup (flat_map (fun e => if keep e then [[fst e]] else []) es).
Proof.
  induction es as [|e es IH]; cbn [map flat_map]; intros Hnd;
    [constructor |].
  inversion Hnd as [|? ? Hnew Hnd']; subst.
  destruct (keep e); cbn [app]; [| auto].
  constructor; [| auto].
  rewrite in_flat_map. intros (e' & He' & H).
  destruct (keep e'); [| destruct H]. destruct H as [H | []].
  injection H as H. apply Hnew. rewrite <- H. now apply in_map.
Qed.

Lemma below_NoDup (es : list (string * node)) :
  NoDup (map fst es) ->
  Forall (fun e => NoDup (disc_paths (snd e))) es ->
  NoDup (flat_map (fun e => map (cons (fst e)) (disc_paths (snd e))) es).
Proof.
  induction es as [|e es IH]; cbn [map flat_map]; intros Hnd Hall;
    [constructor |].
  inversion Hnd as [|? ? Hnew Hnd']; subst.
  inversion Hall as [|? ? He Hall']; subst.
  apply NoDup_app.
  - apply NoDup_map_NoDup_ForallPairs; [| assumption].
    intros a b _ _ H. now injection H.
  - auto.
  - intros a Ha Hb. apply in_map_iff in Ha as (l & <- & _).
    apply in_flat_map in Hb as (e' & He' & H).
    apply in_map_iff in H as (l' & H & _). injection H as H _.
    apply Hnew. rewrite <- H. now apply in_map.
Qed.

Lemma disc_paths_NoDup (n : node) : wf_node n -> NoDup (disc_paths n).
Proof.
  induction n as [data | es IH] using node_ind; intros Hwf; [constructor |].
  inversion Hwf as [| ? Hnd _ Hsub]; subst.
  rewrite disc_paths_dir. apply NoDup_app.
  - now apply (here_NoDup
                 (fun e => is_file (snd e) &&
                           Str.endswith_tuple (fst e) supported_discs)).
  - apply below_NoDup; [assumption |].
    rewrite Forall_forall in *. intros e He. apply (IH e He). now apply Hsub.
  - intros a Ha Hb. apply in_flat_map in Ha as (e & _ & Ha).
    destruct (_ && _); [| destruct Ha]. destruct Ha as [<- | []].
    apply in_flat_map in Hb as (e' & _ & Hb).
    apply in_map_iff in Hb as (l' & H & Hl'). injection H as _ ->.
    now apply disc_paths_nonempty in Hl'.
Qed.

(** Two relative paths written after the same [top] give the same string
    only if they are the same path. *)
Lemma render_inj (top : string) (l1 l2 : list string) :
  Forall (fun c => Str.mem "/" c = false) l1 ->
  Forall (fun c => Str.mem "/" c = false) l2 ->
  l1 <> [] -> l2 <> [] ->
  render top l1 = render top l2 -> l1 = l2.
Proof.
  intros H1 H2 N1 N2 H. unfold render in H.
  apply append_inv_head, append_inv_head in H.
  apply (f_equal Str.split_slash) in H.
  destruct l1 as [|c1 l1], l2 as [|c2 l2]; try contradiction.
  now rewrite !split_slash_concat in H by assumption.
Qed.

(** X6. On an existing directory of a filesystem whose entry names are
    file names, distinct within a directory, no string occurs twice in
    the result: the number of results is the number of disc files. *)
Theorem search_reports_each_file_once
    (w : world) (D : string) (n : node) (found : list string) :
  resolve w D = Some n -> is_dir n = true -> wf_node n ->
  fst (search_path_for_discs decode_7z D w) = Ok found ->
  NoDup found /\ length found = length (disc_paths n).
Proof.
  intros Hr Hd Hwf H.
  rewrite (search_dir decode_7z _ _ _ Hr Hd) in H. cbn [fst] in H.
  rewrite scan_render in H;
    [| assumption | eapply resolve_nonempty; eassumption].
  remember (disc_paths n) as paths eqn:Ep. injection H as <-. subst paths.
  split; [| apply length_map].
  apply NoDup_map_NoDup_ForallPairs; [| now apply disc_paths_NoDup].
  intros l1 l2 Hl1 Hl2.
  apply render_inj;
    first [ now apply (disc_paths_names n)
          | eapply disc_paths_nonempty; eassumption ].
Qed.

End ShapeFacts.

(* ================================================================== *)
(** * Joined paths lead where the walk goes *)

Lemma steps_app (l1 l2 : list string) : forall st,
  steps st (l1 ++ l2) =
  match steps st l1 with
  | Some st' => steps st' l2
  | None => None
  end.
Proof.
  induction l1 as [|c l1 IH]; intros st; cbn [app steps]; [reflexivity |].
  destruct (step st c); [apply IH | reflexivity].
Qed.

Lemma startswith_append (D x : string) :
  D <> "" -> Str.startswith (D +++ x) "/" = Str.startswith D "/".
Proof. destruct D; [congruence | reflexivity]. Qed.

Lemma step_empty (st st' : list node) :
  step st "" = Some st' -> st' = st.
Proof.
  destruct st as [|[data | es] up]; cbn [step]; try discriminate.
  cbn [String.eqb orb]. congruence.
Qed.

Lemma valid_name_tests (c : string) :
  valid_name c = true ->
  String.eqb c "" = false /\ String.eqb c "." = false /\
  String.eqb c ".." = false.
Proof.
  unfold valid_name. rewrite !andb_true_iff, !negb_true_iff. tauto.
Qed.

Lemma step_name (es : list (string * node)) (up : list node)
    (name : string) (child : node) :
  valid_name name = true -> lookup name es = Some child ->
  step (Dir es :: up) name = Some (child :: Dir es :: up).
Proof.
  intros Hv Hl. destruct (valid_name_tests _ Hv) as (E1 & E2 & E3).
  cbn [step]. now rewrite E1, E2, E3, Hl.
Qed.

(** What [os.path.join] makes of a directory path and the name of one of
    its entries resolves to that entry: the names [os.walk] gives to the
    directories it visits lead to these directories. *)
Lemma resolve_join_child
    (w : world) (D : string) (es : list (string * node))
    (name : string) (child : node) :
  resolve w D = Some (Dir es) ->
  valid_name name = true ->
  lookup name es = Some child ->
  resolve w (PosixPath.join D name) = Some child.
Proof.
  intros Hr Hv Hl.
  pose proof (resolve_nonempty _ _ _ Hr) as HD.
  destruct (join_prefix D name (valid_name_relative _ Hv))
    as (sep & -> & Hsep).
  unfold resolve in *.
  replace (String.eqb (D +++ sep +++ name) "") with false
    by (symmetry; apply String.eqb_neq; now apply append_nonempty).
  rewrite startswith_append by assumption.
  apply String.eqb_neq in HD. rewrite HD in Hr.
  destruct (if Str.startswith D "/" then Some [root w]
            else steps [root w] (cwd w)) as [st |]; [| discriminate].
  destruct (steps st (Str.split_slash D)) as [[|n up] |] eqn:Es;
    try discriminate.
  injection Hr as ->.
  pose proof (split_slash_no_slash _ (valid_name_no_slash _ Hv)) as Hn.
  destruct Hsep as [-> | [-> [-> | Hend]]].
  - cbn [String.append].
    rewrite split_slash_append, steps_app, Es, Hn. cbn [steps].
    now rewrite (step_name _ _ _ _ Hv Hl).
  - discriminate.
  - apply endswith_spec in Hend as [pre ->].
    cbn [String.append]. rewrite append_assoc. cbn [String.append].
    rewrite split_slash_append, steps_app in *. cbn [Str.split_slash] in Es.
    destruct (steps st (Str.split_slash pre)) as [st1 |]; [| discriminate].
    cbn [steps] in Es.
    destruct (step st1 "") as [st2 |] eqn:E1; [| discriminate].
    apply step_empty in E1. injection Es as ->. subst st1.
    rewrite Hn. cbn [steps].
    now rewrite (step_name _ _ _ _ Hv Hl).
Qed.

Section PathFacts.

Variable decode_7z : string -> option (list entry).

Lemma flat_map_filter {A B : Type} (keep : A -> bool)
    (g h : A -> list B) (l : list A) :
  (forall a, In a l -> keep a = false -> g a = []) ->
  (forall a, In a l -> keep a = true -> g a = h a) ->
  flat_map g l = flat_map h (filter keep l).
Proof.
  induction l as [|a l IH]; intros Hdrop Hkeep; [reflexivity |].
  cbn [flat_map filter]. rewrite IH by (intros; auto using in_cons).
  destruct (keep a) eqn:E.
  - cbn [flat_map]. now rewrite (Hkeep a (in_eq _ _) E).
  - now rewrite (Hdrop a (in_eq _ _) E).
Qed.

(** X11. The scan of a directory is compositional: its result is the
    disc files among its own entries, in listing order, followed by the
    results of the scans of its subdirectories, each scanned under the
    path [os.path.join] makes of the directory and the entry name. *)
Theorem search_directory_by_parts
    (w : world) (D : string) (es : list (string * node)) :
  resolve w D = Some (Dir es) ->
  NoDup (map fst es) ->
  Forall (fun e => valid_name (fst e) = true) es ->
  fst (search_path_for_discs decode_7z D w) =
  Ok (flat_map (discs_here D) es ++
      flat_map
        (fun e =>
           results
             (fst (search_path_for_discs decode_7z
                     (PosixPath.join D (fst e)) w)))
        (filter (fun e => is_dir (snd e)) es)).
Proof.
  intros Hr Hnd Hnames.
  rewrite (search_dir decode_7z _ _ _ Hr eq_refl), scan_dir. cbn [fst].
  f_equal. f_equal. rewrite Forall_forall in Hnames.
  apply flat_map_filter.
  - intros [name [data | sub]] _ E; [reflexivity | discriminate].
  - intros [name [data | sub]] Hin E; [discriminate |]. cbn [fst snd].
    pose proof (In_lookup _ _ _ Hnd Hin) as Hl.
    pose proof (resolve_join_child w D es name (Dir sub) Hr
                  (Hnames _ Hin) Hl) as Hc.
    now rewrite (search_dir decode_7z _ _ _ Hc eq_refl).
Qed.

End PathFacts.

(* ================================================================== *)
(** * Extraction followed by a scan *)

Section ComposeFacts.

Variable decode_7z : string -> option (list entry).





Lemma joins_render (p : list string) : forall top,
  top <> "" -> Forall (fun c => valid_name c = true) p -> p <> [] ->
  joins top p = render top p.
Proof.
  induction p as [|c p IH]; intros top Ht Hp Hne; [contradiction |].
  inversion Hp as [|? ? Hc Hp']; subst. rewrite joins_cons.
  destruct p as [|c2 p].
  - now apply join_valid.
  - rewrite IH; try assumption; try discriminate.
    + apply render_join; [assumption | assumption | discriminate].
    + rewrite (join_valid _ _ Ht Hc). now apply render_nonempty.
Qed.




End ComposeFacts.

(* ================================================================== *)
(** * These theorems at work on the small disks *)

Lemma extract_open_failure_reported_witness :
  resolve Demo.disk "corrupt.7z" = Some (File "not an archive") /\
  Demo.toy_7z "not an archive" = None /\
  extract_archive Demo.toy_7z "corrupt.7z" Demo.disk =
  (Ok tt,
   World (root Demo.disk) (cwd Demo.disk) ["Error extracting corrupt.7z"]).
Proof.
  split; [reflexivity | split; [reflexivity |]].
  apply (extract_open_failure_reported Demo.toy_7z Demo.disk "corrupt.7z").
  right. right. exists "not an archive". split; reflexivity.
Defined.

Lemma extract_failure_raises_type_error_witness :
  extractall [Entry "ok.iso" (Some "x"); Entry "cd1/track.bin" (Some "T")]
             Demo2.half_blocked =
  (Raise FileExistsError, Demo2.half_written) /\
  extract_archive Demo2.toy_7z "mixed.7z" Demo2.half_blocked =
  (Raise TypeError, Demo2.half_written) /\
  get (root Demo2.half_written) ["home"; "ok.iso"] = Some (File "x").
Proof.
  split; [reflexivity |]. split; [| reflexivity].
  apply (extract_failure_raises_type_error Demo2.toy_7z Demo2.half_blocked
           "mixed.7z" "7z:mixed"
           [Entry "ok.iso" (Some "x"); Entry "cd1/track.bin" (Some "T")]
           FileExistsError Demo2.half_written);
    reflexivity.
Defined.

Lemma extract_archive_raises_iff_witness :
  fst (extract_archive Demo2.toy_7z "mixed.7z" Demo2.half_blocked) =
  Raise TypeError.
Proof.
  apply (proj2 (extract_archive_raises_iff Demo2.toy_7z Demo2.half_blocked
                  "mixed.7z" TypeError)).
  split; [reflexivity |].
  exists "7z:mixed",
         [Entry "ok.iso" (Some "x"); Entry "cd1/track.bin" (Some "T")],
         FileExistsError.
  repeat split.
Defined.

Lemma search_raises_iff_witness :
  fst (search_path_for_discs Demo.toy_7z "corrupt.7z" Demo.disk) =
  Raise Bad7zFile.
Proof.
  apply (proj2 (search_raises_iff Demo.toy_7z Demo.disk "corrupt.7z"
                  Bad7zFile)).
  split; [reflexivity |]. exists "not an archive".
  split; [reflexivity |]. split; [| reflexivity].
  apply endswith_tuple_spec. reflexivity.
Defined.

Lemma search_directory_empty_iff_witness :
  fst (search_path_for_discs Demo2.toy_7z "." Demo2.half_blocked) = Ok [] /\
  forall p es file data,
    reaches (Dir [("mixed.7z", File "7z:mixed"); ("cd1", File "scratch")])
            p (Dir es) ->
    In (file, File data) es ->
    ~ has_suffix_in supported_discs file.
Proof.
  split; [reflexivity |].
  apply (proj1 (search_directory_empty_iff Demo2.toy_7z Demo2.half_blocked "."
                  (Dir [("mixed.7z", File "7z:mixed");
                        ("cd1", File "scratch")])
                  eq_refl eq_refl)).
  reflexivity.
Defined.

Lemma main_propagates_scan_failure_witness :
  fst (search_path_for_discs Demo.toy_7z "corrupt.7z" Demo.disk) =
  Raise Bad7zFile /\
  main Demo.toy_7z ["Optimize-Disc.py"; "corrupt.7z"; "more"] Demo.disk =
  (Raise Bad7zFile, Demo.disk).
Proof.
  split; [reflexivity |].
  apply (main_propagates_scan_failure Demo.toy_7z Demo.disk
           "Optimize-Disc.py" "corrupt.7z" ["more"] Bad7zFile).
  reflexivity.
Defined.

Lemma search_lists_rendered_paths_witness :
  disc_paths Demo.roms = [["doom.iso"]; ["psx"; "ff7.bin"]; ["psx"; "ff7.cue"]]
  /\
  search_path_for_discs Demo.toy_7z "/home/roms/" Demo.disk =
  (Ok ["/home/roms/doom.iso"; "/home/roms/psx/ff7.bin";
       "/home/roms/psx/ff7.cue"], Demo.disk).
Proof.
  split; [reflexivity |].
  apply (search_lists_rendered_paths Demo.toy_7z Demo.disk "/home/roms/"
           Demo.roms).
  - reflexivity.
  - reflexivity.
  - unfold Demo.roms, Demo.psx. wf_tree.
Defined.

Lemma search_reports_each_file_once_witness :
  NoDup ["roms/doom.iso"; "roms/psx/ff7.bin"; "roms/psx/ff7.cue"] /\
  length ["roms/doom.iso"; "roms/psx/ff7.bin"; "roms/psx/ff7.cue"] =
  length (disc_paths Demo.roms).
Proof.
  apply (search_reports_each_file_once Demo.toy_7z Demo.disk "roms"
           Demo.roms).
  - reflexivity.
  - reflexivity.
  - unfold Demo.roms, Demo.psx. wf_tree.
  - reflexivity.
Defined.

Lemma search_directory_by_parts_witness :
  fst (search_path_for_discs Demo.toy_7z "roms" Demo.disk) =
  Ok (["roms/doom.iso"] ++
      results (fst (search_path_for_discs Demo.toy_7z "roms/psx" Demo.disk))).
Proof.
  rewrite (search_directory_by_parts Demo.toy_7z Demo.disk "roms"
             [("GAME.ISO", File "u"); ("doom.iso", File "d");
              ("psx", Demo.psx)]).
  - reflexivity.
  - reflexivity.
  - wf_tree.
  - repeat constructor.
Defined.


(* ================================================================== *)
(** * The number in the summary line *)

Section CountFacts.

Variable decode_7z : string -> option (list entry).

(** X13. Started without an argument in an existing working directory,
    the script prints one line whose number is the number of regular
    files below the working directory, at any depth, whose name ends
    with a disc suffix: [No supported disc files found ...] when there
    is none, [Found N ...] otherwise. *)
Theorem main_counts_disc_files
    (w : world) (prog : string) (d : list (string * node)) :
  Forall (fun c => valid_name c = true) (cwd w) ->
  get (root w) (cwd w) = Some (Dir d) ->
  wf_node (Dir d) ->
  main decode_7z [prog] w =
  (Ok tt,
   World (root w) (cwd w)
         (stdout w ++
          [summary_line (length (disc_paths (Dir d))) "current directory"])).
Proof.
  intros Hcwd Hget Hwf.
  pose proof (resolve_getcwd w (get_dir_root _ _ _ Hget) Hcwd) as Hr.
  rewrite Hget in Hr.
  rewrite (main_no_argument decode_7z [prog] w eq_refl).
  rewrite (search_dir decode_7z _ _ _ Hr eq_refl). cbn [fst].
  rewrite scan_render, length_map; [reflexivity | assumption | discriminate].
Qed.

End CountFacts.

Lemma main_counts_disc_files_witness :
  length (disc_paths Demo.home) = 3 /\
  main Demo.toy_7z ["Optimize-Disc.py"] Demo.disk =
  (Ok tt,
   World (root Demo.disk) (cwd Demo.disk)
         ["Found 3 supported disc files in current directory"]).
Proof.
  split; [reflexivity |].
  apply (main_counts_disc_files Demo.toy_7z Demo.disk "Optimize-Disc.py"
           [("a.zip", File "7z:discs"); ("good.zip", File "7z:album");
            ("corrupt.7z", File "not an archive"); ("notes.txt", File "n");
            ("roms", Demo.roms)]).
  - repeat constructor.
  - reflexivity.
  - unfold Demo.roms, Demo.psx. wf_tree.
Defined.

(* ================================================================== *)
(** * The results name the files *)

Lemma resolve_joins (w : world) (n : node) (p : list string) (m : node) :
  reaches n p m -> forall top,
  wf_node n -> resolve w top = Some n ->
  resolve w (joins top p) = Some m.
Proof.
  induction 1 as [n | es name sub p m Hin Hreach IH]; intros top Hwf Hr;
    [exact Hr |].
  inversion Hwf as [| ? Hnd Hnames Hsub]; subst.
  rewrite Forall_forall in Hnames, Hsub.
  rewrite joins_cons. apply IH; [exact (Hsub _ Hin) |].
  apply (resolve_join_child w top es name sub Hr (Hnames _ Hin)).
  now apply In_lookup.
Qed.

Lemma reaches_snoc (n : node) (p : list string)
    (es : list (string * node)) (name : string) (sub : node) :
  reaches n p (Dir es) -> In (name, sub) es ->
  reaches n (p ++ [name]) sub.
Proof.
  intros H Hin. remember (Dir es) as target eqn:Et.
  induction H as [n | es0 name0 sub0 p m H0 _ IH]; subst; cbn [app].
  - econstructor; [eassumption | constructor].
  - econstructor; [eassumption | now apply IH].
Qed.

Section ResolveFacts.

Variable decode_7z : string -> option (list entry).

(** X10. On an existing directory of a filesystem whose entry names are
    file names, distinct within a directory, every string of the result
    is a path that resolves, from where the scan was started, to a
    regular file: the results can be opened as they are. *)
Theorem search_results_resolve
    (w : world) (D : string) (n : node) (found : list string) :
  resolve w D = Some n -> is_dir n = true -> wf_node n ->
  fst (search_path_for_discs decode_7z D w) = Ok found ->
  Forall (fun s => exists data, resolve w s = Some (File data)) found.
Proof.
  intros Hr Hd Hwf H.
  rewrite (search_dir decode_7z _ _ _ Hr Hd) in H. cbn [fst] in H.
  remember (walk D n) as triples eqn:Et. injection H as <-. subst triples.
  apply Forall_forall. intros s Hs.
  apply scan_tree_In in Hs as (p & es & file & data & Hreach & Hin & _ & ->).
  exists data.
  pose proof (reaches_snoc _ _ _ _ _ Hreach Hin) as Hfile.
  pose proof (resolve_joins w n _ _ Hfile D Hwf Hr) as Hres.
  unfold joins in *. now rewrite fold_left_app in Hres.
Qed.

End ResolveFacts.

Lemma search_results_resolve_witness :
  fst (search_path_for_discs Demo.toy_7z "roms" Demo.disk) =
  Ok ["roms/doom.iso"; "roms/psx/ff7.bin"; "roms/psx/ff7.cue"] /\
  Forall (fun s => exists data, resolve Demo.disk s = Some (File data))
         ["roms/doom.iso"; "roms/psx/ff7.bin"; "roms/psx/ff7.cue"].
Proof.
  split; [reflexivity |].
  apply (search_results_resolve Demo.toy_7z Demo.disk "roms" Demo.roms).
  - reflexivity.
  - reflexivity.
  - unfold Demo.roms, Demo.psx. wf_tree.
  - reflexivity.
Defined.

(* ================================================================== *)
(** * The passes of extractall *)

Lemma str_inj (i j : nat) : Str.str i = Str.str j -> i = j.
Proof.
  unfold Str.str. intros H. apply Unsigned.to_uint_inj.
  assert (Some (Nat.to_uint i) = Some (Nat.to_uint j)) as E
    by (rewrite <- !NilEmpty.usu; now rewrite H).
  now injection E.
Qed.

Lemma fresh_name_free (fnames : list string) (name : string) :
  forall fuel i,
  (exists j, i <= j <= i + fuel /\
             ~ In (name +++ "_" +++ Str.str j) fnames) ->
  ~ In (fresh_name fuel i fnames name) fnames.
Proof.
  induction fuel as [|fuel IH]; intros i (j & Hj & Hfree); cbn [fresh_name].
  - now replace i with j by lia.
  - destruct (existsb (String.eqb (name +++ "_" +++ Str.str i)) fnames)
      eqn:E.
    + apply IH. exists j. split; [| assumption].
      assert (j <> i); [| lia]. intros ->. apply Hfree.
      apply existsb_exists in E as (x & Hin & Hx).
      apply String.eqb_eq in Hx. now subst x.
    + intros Hin.
      assert (existsb (String.eqb (name +++ "_" +++ Str.str i)) fnames
              = true) as E'; [| congruence].
      apply existsb_exists. eexists. split; [exact Hin |].
      apply String.eqb_refl.
Qed.

(** The search for a name that is not in use ends within the rounds it
    is given: the name a member is written under is never one that a
    member before it is written under. *)
Lemma out_name_free (fnames : list string) (name : string) :
  ~ In (out_name fnames name) fnames.
Proof.
  unfold out_name.
  destruct (existsb (String.eqb name) fnames) eqn:E.
  - apply fresh_name_free.
    set (f := fun j => name +++ "_" +++ Str.str j).
    destruct (Forall_Exists_dec (fun j => In (f j) fnames)
                (fun j => in_dec string_dec (f j) fnames)
                (seq 0 (S (length fnames)))) as [Hall | Hex].
    + assert (length (map f (seq 0 (S (length fnames)))) <= length fnames)
        as Hlen.
      { apply NoDup_incl_length.
        - apply NoDup_map_NoDup_ForallPairs; [| apply seq_NoDup].
          intros a b _ _ Hab. unfold f in Hab.
          apply append_inv_head in Hab. apply (append_inv_head "_") in Hab.
          now apply str_inj.
        - intros x Hx. apply in_map_iff in Hx as (j & <- & Hj).
          rewrite Forall_forall in Hall. now apply Hall. }
      rewrite length_map, length_seq in Hlen. lia.
    + apply Exists_exists in Hex as (j & Hj & Hfree).
      apply in_seq in Hj. exists j. split; [lia | exact Hfree].
  - intros Hin.
    assert (existsb (String.eqb name) fnames = true) as E'; [| congruence].
    apply existsb_exists. eexists. split; [exact Hin |].
    apply String.eqb_refl.
Qed.

(** A member name that comes a second time is written under [name_0],
    beside the first. *)
Example extractall_repeated_name :
  extractall [Entry "x.iso" (Some "A"); Entry "x.iso" (Some "B")]
             (World (Dir [("home", Dir [])]) ["home"] []) =
  (Ok tt,
   World (Dir [("home", Dir [("x.iso", File "A"); ("x.iso_0", File "B")])])
         ["home"] []).
Proof. reflexivity. Qed.

(** A directory member is passed over where something is already at its
    place, be it a regular file. *)
Example extractall_directory_over_file :
  extractall [Entry "cd1" None]
             (World (Dir [("home", Dir [("cd1", File "scratch")])])
                    ["home"] []) =
  (Ok tt, World (Dir [("home", Dir [("cd1", File "scratch")])]) ["home"] []).
Proof. reflexivity. Qed.

(** Every name is looked at before anything is written: with a name
    that leaves the destination anywhere in the archive, nothing is
    extracted. *)
Example extractall_refused_name :
  extractall [Entry "ok.iso" (Some "x"); Entry "../out.iso" (Some "y")]
             (World (Dir [("home", Dir [])]) ["home"] []) =
  (Raise Bad7zFile, World (Dir [("home", Dir [])]) ["home"] []).
Proof. reflexivity. Qed.

(** The directories are made before the first file is written. *)
Example extractall_directories_first :
  extractall [Entry "a.iso" (Some "x"); Entry "b/c.iso" (Some "y");
              Entry "d" None]
             (World (Dir [("home", Dir [("b", File "scratch")])])
                    ["home"] []) =
  (Raise FileExistsError,
   World (Dir [("home", Dir [("b", File "scratch"); ("d", Dir []);
                             ("a.iso", File "x")])])
         ["home"] []).
Proof. reflexivity. Qed.

(** A payload that does not agree with its checksum stops the
    extraction, after the archive was opened. *)
Example extractall_damaged_payload :
  extractall [Entry "a.iso" (Some "x"); Member "b.iso" (Some "y") false;
              Entry "c.iso" (Some "z")]
             (World (Dir [("home", Dir [])]) ["home"] []) =
  (Raise CrcError,
   World (Dir [("home", Dir [("a.iso", File "x"); ("b.iso", File "y")])])
         ["home"] []).
Proof. reflexivity. Qed.

(** Without a working directory nothing is extracted, and none is
    made. *)
Example extractall_no_working_directory :
  extractall [Entry "a.iso" (Some "x")] (World (Dir []) ["gone"] []) =
  (Raise FileNotFoundError, World (Dir []) ["gone"] []).
Proof. reflexivity. Qed.

(** A member without bytes leaves a file that is there as it is. *)
Example extractall_empty_member :
  extractall [Entry "log.txt" (Some "")]
             (World (Dir [("home", Dir [("log.txt", File "old")])])
                    ["home"] []) =
  (Ok tt, World (Dir [("home", Dir [("log.txt", File "old")])]) ["home"] []).
Proof. reflexivity. Qed.

(** A ZIP archive given to [extract_archive] is not opened: the message
    is printed and nothing is extracted. *)
Example extract_zip_reported :
  extract_archive Demo3.toy_7z "a.zip" Demo3.disk =
  (Ok tt,
   World (root Demo3.disk) (cwd Demo3.disk) ["Error extracting a.zip"]).
Proof. reflexivity. Qed.

(* ================================================================== *)
(** * The results lie below the scanned directory *)

Lemma reaches_get (n : node) (p : list string) (m : node) :
  reaches n p m -> wf_node n -> get n p = Some m.
Proof.
  induction 1 as [n | es name sub p m Hin Hreach IH]; intros Hwf;
    [reflexivity |].
  inversion Hwf as [| ? Hnd _ Hsub]; subst.
  rewrite Forall_forall in Hsub. cbn [get].
  rewrite (In_lookup _ _ _ Hnd Hin). apply IH. exact (Hsub _ Hin).
Qed.

Section BelowFacts.

Variable decode_7z : string -> option (list entry).

(** C10. On an existing directory [D] of a filesystem whose entry names
    are file names, distinct within a directory, every string of the
    result lies below [D]: it is [D], a separator unless [D] ends with
    one, and then the names of the directory entries that lead from the
    scanned directory down to a regular file of its subtree, separated
    by slashes.  None of these names is [..], so no result steps out of
    the scanned directory. *)
Theorem search_results_under_root
    (w : world) (D : string) (n : node) (found : list string) :
  resolve w D = Some n -> is_dir n = true -> wf_node n ->
  fst (search_path_for_discs decode_7z D w) = Ok found ->
  Forall (fun s => under_path D s /\ names_file_below D n s) found.
Proof.
  intros Hr Hd Hwf H.
  rewrite (search_dir decode_7z w D n Hr Hd) in H. cbn [fst] in H.
  remember (walk D n) as triples eqn:Et. injection H as <-. subst triples.
  apply Forall_forall. intros s Hs.
  apply scan_tree_In in Hs as (p & es & f & data & Hreach & Hf & _ & ->).
  pose proof (resolve_nonempty _ _ _ Hr) as HD.
  pose proof (reaches_snoc _ _ _ _ _ Hreach Hf) as Hfile.
  destruct (reaches_wf _ _ _ Hfile Hwf) as [Hl _].
  split.
  - pose proof Hl as Hl'. apply Forall_app in Hl' as [Hp Hc].
    inversion Hc as [|? ? Hv _]; subst.
    destruct (joins_under_path D p HD Hp) as (r & -> & Hu).
    now apply join_under_path; [| | apply valid_name_relative].
  - exists (p ++ [f]), data.
    split; [now destruct p |]. split; [exact Hl |].
    split; [exact (reaches_get _ _ _ Hfile Hwf) |].
    rewrite <- joins_render; [| assumption | assumption | now destruct p].
    unfold joins. now rewrite fold_left_app.
Qed.

End BelowFacts.

Lemma search_results_under_root_witness :
  resolve Demo.disk "roms" = Some Demo.roms /\
  Forall (fun s => under_path "roms" s /\
                   names_file_below "roms" Demo.roms s)
         ["roms/doom.iso"; "roms/psx/ff7.bin"; "roms/psx/ff7.cue"].
Proof.
  split; [reflexivity |].
  apply (search_results_under_root Demo.toy_7z Demo.disk "roms" Demo.roms).
  - reflexivity.
  - reflexivity.
  - unfold Demo.roms, Demo.psx. wf_tree.
  - reflexivity.
Defined.
